(** * Migration-graph analytics of the community-migration visualiser

    A shallow embedding of the graph utilities of the frontend
    ([frontend/src/components/NetworkGraph.jsx], data-manipulation part, and
    [frontend/src/utils/calculations.js]) together with the properties the
    specification states about them.

    Conventions of the embedding:
    - community ids are JavaScript strings, modelled as [string];
    - a JS [Map] keyed by ids is a [gmap string _], a JS [Set] of ids a
      [gset string]; a plain object used as a dictionary is the
      [gmap string _] of its own properties, written through [assign],
      which knows the one key an assignment cannot create;
    - arrays are lists, [push] appends at the end, [shift] removes the head;
    - an argument that may be [null]/[undefined] is an [option];
    - integer-valued JS numbers are [Z]; quotients are exact rationals [Q]
      (comparing a quotient of two small integers with 0, 1 or 2 gives the
      same answer as for its IEEE rounding); [NaN] and the two infinities
      are separate constructors. *)

From Stdlib Require Import ZArith QArith Qround Qminmax Lia Lqa.
From stdpp Require Import gmap strings list fin_maps sorting pretty.

Local Open Scope Z_scope.
Local Open Scope string_scope.
Local Open Scope list_scope.

(** ** Data model *)

Module Node.
Record t := mk {
  id : string;
  name : string;
  category : string;
  size : Z
}.
End Node.

Module Link.
Record t := mk {
  source : string;
  target : string;
  value : Z;
  avg_time_gap : option Q;
  migration_velocity : option Q
}.
End Link.

(** A graph object as it arrives from JSON: either array may be missing
    ([None] stands for any falsy field value). *)
Record Graph := mkGraph {
  nodes : option (list Node.t);
  links : option (list Link.t)
}.

(** A structurally complete graph. *)
Definition graphOf (ns : list Node.t) (ls : list Link.t) : Graph :=
  {| nodes := Some ns; links := Some ls |}.

(** [link.source -> link.target] is a link of the list, in that direction. *)
Definition edge (ls : list Link.t) (a b : string) : Prop :=
  ∃ l, l ∈ ls ∧ Link.source l = a ∧ Link.target l = b.

(** ** findPath *)

(** One iteration of [graph.links.forEach(link => ...)] building the
    adjacency map. *)
Definition addLink (adjacency : gmap string (list string)) (link : Link.t)
  : gmap string (list string) :=
  let adjacency' :=
    if decide (is_Some (adjacency !! Link.source link)) then adjacency
    else <[Link.source link := []]> adjacency in
  <[Link.source link :=
      default [] (adjacency' !! Link.source link) ++ [Link.target link]]> adjacency'.

Definition buildAdjacency (ls : list Link.t) : gmap string (list string) :=
  foldl addLink ∅ ls.

(** The locals of the search loop. *)
Record Search := mkSearch {
  queue : list (list string);
  visited : gset string
}.

(** Body of [for (const neighbor of neighbors)]. *)
Definition visit (path : list string) (st : Search) (neighbor : string) : Search :=
  if decide (neighbor ∈ visited st) then st
  else {| queue := queue st ++ [path ++ [neighbor]];
          visited := visited st ∪ {[neighbor]} |}.

(** [adjacency.get(current) || []] *)
Definition neighborsOf (adjacency : gmap string (list string)) (current : string)
  : list string :=
  default [] (adjacency !! current).

(** The [while (queue.length > 0)] loop.  [fuel] bounds the number of
    iterations; [None] means the bound was reached before the loop ended. *)
Fixpoint bfs (fuel : nat) (adjacency : gmap string (list string))
    (targetId : string) (st : Search) : option (list string) :=
  match fuel with
  | O => None
  | S fuel' =>
    match queue st with
    | [] => Some []
    | path :: rest =>
      let st' := {| queue := rest; visited := visited st |} in
      match last path with
      | Some current =>
        if decide (current = targetId) then Some path
        else bfs fuel' adjacency targetId
               (foldl (visit path) st' (neighborsOf adjacency current))
      | None => bfs fuel' adjacency targetId st'
      end
    end
  end.

(** Iterations never exceed [2 + number of links] (see [bfs_fuel_enough]). *)
Definition searchFuel (ls : list Link.t) : nat := 2 + length ls.

Definition findPath (graph : option Graph) (sourceId targetId : string)
  : list string :=
  match graph with
  | Some {| nodes := Some _; links := Some ls |} =>
    default []
      (bfs (searchFuel ls) (buildAdjacency ls) targetId
         {| queue := [[sourceId]]; visited := {[sourceId]} |})
  | _ => []
  end.

(** ** calculateCentrality *)

(** A JS number as the centrality object holds it; rationals are kept in
    lowest terms, so that equal numbers are equal terms. *)
Inductive jsnum :=
| Num (q : Q)
| NaN
| Infinity (negative : bool).

(** [centrality[k] = x] for a number [x].  [centrality] is a plain object
    ([{}]), so the name ['__proto__'] is taken by the accessor it inherits
    from [Object.prototype]: assigning to it calls the setter, which ignores
    a value that is no object, and no own property comes into being.  Every
    other name gets an own property (inherited data properties such as
    [constructor] are shadowed). *)
Definition assign (c : gmap string jsnum) (k : string) (x : jsnum)
  : gmap string jsnum :=
  if decide (k = "__proto__") then c else <[k := x]> c.

(** [centrality[node.id] = 0] for every node, in order. *)
Definition initCentrality (ns : list Node.t) : gmap string jsnum :=
  foldl (λ c node, assign c (Node.id node) (Num 0)) ∅ ns.

(** [centrality[k]++]: a name without an own property reads [undefined] or
    an inherited function or object, whose increment is [NaN]; the result
    is assigned to [k]. *)
Definition increment (c : gmap string jsnum) (k : string) : gmap string jsnum :=
  assign c k
    match c !! k with
    | Some (Num q) => Num (Qred (q + 1))
    | Some (Infinity negative) => Infinity negative
    | _ => NaN
    end.

(** The ids visited by [for (let i = 1; i < path.length - 1; i++)]. *)
Definition intermediates (path : list string) : list string :=
  take (length path - 2) (drop 1 path).

(** Body of the inner [forEach(target => ...)]. *)
Definition countPair (graph : option Graph) (source : Node.t)
    (c : gmap string jsnum) (target : Node.t) : gmap string jsnum :=
  if decide (Node.id source ≠ Node.id target) then
    foldl increment c
      (intermediates (findPath graph (Node.id source) (Node.id target)))
  else c.

(** The two nested [forEach] loops over [graph.nodes]. *)
Definition countPairs (graph : option Graph) (ns : list Node.t)
    (c : gmap string jsnum) : gmap string jsnum :=
  foldl (λ c source, foldl (countPair graph source) c ns) c ns.

(** [(numNodes - 1) * (numNodes - 2) / 2]; the product of two consecutive
    integers is even, so the quotient is an integer.  (For one node JS
    computes [-0]; the test [normalizer > 0] does not tell it from [0].) *)
Definition normalizer (numNodes : Z) : Q :=
  (inject_Z ((numNodes - 1) * (numNodes - 2)) / 2)%Q.

(** [centrality[nodeId] /= normalizer], that is [x / d].  A quotient by
    zero is [NaN] for the dividends 0 and [NaN] and an infinity for the
    others; the one zero of the rationals stands for [+0], so this infinity
    has the sign of the dividend. *)
Definition divide (d : Q) (x : jsnum) : jsnum :=
  match x with
  | Num q =>
    if Qeq_bool d 0 then
      match (q ?= 0)%Q with
      | Eq => NaN
      | Lt => Infinity true
      | Gt => Infinity false
      end
    else Num (Qred (q / d))
  | NaN => NaN
  | Infinity negative =>
    if Qle_bool 0 d then Infinity negative else Infinity (negb negative)
  end.

(** The accumulated counts, before normalisation. *)
Definition centralityCounts (graph : option Graph) (ns : list Node.t)
  : gmap string jsnum :=
  countPairs graph ns (initCentrality ns).

Definition calculateCentrality (graph : option Graph) : gmap string jsnum :=
  match graph with
  | Some {| nodes := Some ns; links := Some _ |} =>
    let centrality := centralityCounts graph ns in
    let normalizer := normalizer (Z.of_nat (length ns)) in
    if negb (Qle_bool normalizer 0) then divide normalizer <$> centrality
    else centrality
  | _ => ∅
  end.

(** ** The loaded document and its filters *)

(** JSON values of the fields the utilities only pass along. *)
#[local] Set Warnings "-register-all".
Inductive Json :=
| JNull
| JNum (q : Q)
| JStr (s : string)
| JArr (elems : list Json)
| JObj (fields : list (string * Json)).

Record Data := mkData {
  graph : option Graph;
  metadata : Json;
  bridge_communities : Json;
  summary_stats : Json
}.

(** How a call completes: with a value, or by throwing (for an [async]
    function: the promise resolves, or rejects). *)
Inductive Completion (A : Type) :=
| Normal (a : A)
| Throw (error : string).
Arguments Normal {A} a.
Arguments Throw {A} error.

(** What the environment answers to [fetch] and to [response.json()]:
    the request fails, or a response arrives with its [ok] flag and a body
    that parses to a document or fails to. *)
Inductive FetchOutcome :=
| NetworkFailure (error : string)
| Response (ok : bool) (body : string + Data).

(** The [try] block of [loadMigrationData]: [inl] is the thrown error. *)
Definition tryLoad (env : FetchOutcome) : string + Data :=
  match env with
  | NetworkFailure e => inl e
  | Response ok body =>
    if negb ok then inl "Failed to load migration data"
    else
      match body with
      | inl e => inl e
      | inr data =>
        match graph data with
        | Some {| nodes := Some _; links := Some _ |} => inr data
        | _ => inl "Invalid data structure"
        end
      end
  end.

(** The structure returned from the [catch] block. *)
Definition emptyData : Data :=
  {| graph := Some (graphOf [] []);
     metadata := JObj [];
     bridge_communities := JArr [];
     summary_stats := JObj [] |}.

(** [loadMigrationData]: the completion of the returned promise and the
    messages passed to [console.error]. *)
Definition loadMigrationData (env : FetchOutcome)
  : Completion Data * list string :=
  match tryLoad env with
  | inr data => (Normal data, [])
  | inl error => (Normal emptyData, [error])
  end.

(** [links.filter(link => link.value >= minFlow)] *)
Definition keepLink (minFlow : Z) (link : Link.t) : bool :=
  bool_decide (minFlow ≤ Link.value link)%Z.

(** The [Set] filled by [filteredLinks.forEach]. *)
Definition connectedNodeIds (filteredLinks : list Link.t) : gset string :=
  foldl (λ ids link, ids ∪ {[Link.source link]} ∪ {[Link.target link]})
    ∅ filteredLinks.

Definition typeError : string :=
  "TypeError: Cannot read properties of undefined (reading 'filter')".

Definition filterByMinFlow (data : option Data) (minFlow : Z)
  : Completion (option Data) :=
  match data with
  | None => Normal data
  | Some d =>
    match graph d with
    | None => Normal data
    | Some g =>
      if bool_decide (minFlow ≤ 0)%Z then Normal data
      else
        match links g, nodes g with
        | None, _ => Throw typeError
        | Some ls, ns =>
          let filteredLinks := filter (λ link, keepLink minFlow link = true) ls in
          let connected := connectedNodeIds filteredLinks in
          match ns with
          | None => Throw typeError
          | Some ns =>
            let filteredNodes := filter (λ node, Node.id node ∈ connected) ns in
            Normal (Some {| graph := Some (graphOf filteredNodes filteredLinks);
                            metadata := metadata d;
                            bridge_communities := bridge_communities d;
                            summary_stats := summary_stats d |})
          end
        end
    end
  end.

(** ** calculateCommunityStats *)

(** [Array.prototype.sort] with the comparator [(a, b) => b.value - a.value]:
    the stable arrangement in descending order of [value].  [x], which
    precedes every element of [sorted] in the array, is placed before the
    first element whose value does not exceed its own, so that links of
    equal value keep their order. *)
Fixpoint insertByValue (x : Link.t) (sorted : list Link.t) : list Link.t :=
  match sorted with
  | [] => [x]
  | y :: rest =>
    if bool_decide (Link.value y ≤ Link.value x)%Z then x :: sorted
    else y :: insertByValue x rest
  end.

Definition sortByValueDesc (ls : list Link.t) : list Link.t :=
  foldr insertByValue [] ls.

(** [reduce((sum, link) => sum + link.value, 0)] *)
Definition totalValue (ls : list Link.t) : Z :=
  foldl (λ sum link, sum + Link.value link) 0 ls.

(** [reduce((sum, link) => sum + (link.avg_time_gap || 0), 0)] *)
Definition totalTimeGap (ls : list Link.t) : Q :=
  foldl (λ sum link, (sum + default 0 (Link.avg_time_gap link))%Q) 0%Q ls.

(** [Math.round(x * 10) / 10]; [Math.round] rounds halves upwards. *)
Definition roundTenth (x : Q) : Q :=
  (inject_Z (Qfloor (x * 10 + (1 # 2))) / 10)%Q.

Definition averageTime (ls : list Link.t) : Q :=
  match ls with
  | [] => 0%Q
  | _ => (totalTimeGap ls / inject_Z (Z.of_nat (length ls)))%Q
  end.

Record Direction := mkDirection {
  count : nat;
  total : Z;
  avgTime : Q;
  top : list Link.t
}.

Record Stats := mkStats {
  incoming : Direction;
  outgoing : Direction;
  netFlow : Z
}.

Definition direction (ls : list Link.t) : Direction :=
  {| count := length ls;
     total := totalValue ls;
     avgTime := roundTenth (averageTime ls);
     top := take 5 (sortByValueDesc ls) |}.

(** [communityId] is [None] for [null]/[undefined]; the empty string is
    falsy as well.  [Normal None] is the [null] result. *)
Definition calculateCommunityStats (graph : option Graph)
    (communityId : option string) : Completion (option Stats) :=
  match graph, communityId with
  | Some g, Some c =>
    if decide (c = "") then Normal None
    else
      match links g with
      | None => Throw typeError
      | Some ls =>
        let incomingLinks := filter (λ link, Link.target link = c) ls in
        let outgoingLinks := filter (λ link, Link.source link = c) ls in
        Normal (Some {| incoming := direction incomingLinks;
                        outgoing := direction outgoingLinks;
                        netFlow := totalValue incomingLinks - totalValue outgoingLinks |})
      end
  | _, _ => Normal None
  end.

(** ** The analytics as store transformers

    The same two functions with their effects explicit.  The store holds
    the graph object the caller passes in and the objects the functions
    create for themselves ([adjacency], [queue]/[visited], [centrality]);
    each mutating statement of the source is one store update. *)

Record Store := mkStore {
  graphObject : option Graph;
  adjacencyMap : gmap string (list string);
  searchState : Search;
  centralityObject : gmap string jsnum
}.

Definition Run (A : Type) : Type := Store → A * Store.

#[local] Instance run_ret : MRet Run := λ A a σ, (a, σ).
#[local] Instance run_bind : MBind Run :=
  λ A B f m σ, let '(a, σ') := m σ in f a σ'.

Definition readGraph : Run (option Graph) := λ σ, (graphObject σ, σ).
Definition readAdjacency : Run (gmap string (list string)) :=
  λ σ, (adjacencyMap σ, σ).
Definition writeAdjacency (a : gmap string (list string)) : Run unit :=
  λ σ, (tt, {| graphObject := graphObject σ; adjacencyMap := a;
               searchState := searchState σ;
               centralityObject := centralityObject σ |}).
Definition readSearch : Run Search := λ σ, (searchState σ, σ).
Definition writeSearch (st : Search) : Run unit :=
  λ σ, (tt, {| graphObject := graphObject σ; adjacencyMap := adjacencyMap σ;
               searchState := st;
               centralityObject := centralityObject σ |}).
Definition readCentrality : Run (gmap string jsnum) :=
  λ σ, (centralityObject σ, σ).
Definition writeCentrality (c : gmap string jsnum) : Run unit :=
  λ σ, (tt, {| graphObject := graphObject σ; adjacencyMap := adjacencyMap σ;
               searchState := searchState σ;
               centralityObject := c |}).

(** [array.forEach(body)] *)
Fixpoint forEach {A} (l : list A) (body : A → Run unit) : Run unit :=
  match l with
  | [] => mret tt
  | x :: l' => body x;; forEach l' body
  end.

(** The search loop on the store. *)
Fixpoint searchLoop (fuel : nat) (targetId : string) : Run (option (list string)) :=
  match fuel with
  | O => mret None
  | S fuel' =>
    st ← readSearch;
    match queue st with
    | [] => mret (Some [])
    | path :: rest =>
      writeSearch {| queue := rest; visited := visited st |};;
      match last path with
      | Some current =>
        if decide (current = targetId) then mret (Some path)
        else
          adjacency ← readAdjacency;
          forEach (neighborsOf adjacency current)
            (λ neighbor, st ← readSearch; writeSearch (visit path st neighbor));;
          searchLoop fuel' targetId
      | None => searchLoop fuel' targetId
      end
    end
  end.

Definition findPathRun (sourceId targetId : string) : Run (list string) :=
  graph ← readGraph;
  match graph with
  | Some {| nodes := Some _; links := Some ls |} =>
    writeAdjacency ∅;;
    forEach ls (λ link, a ← readAdjacency; writeAdjacency (addLink a link));;
    writeSearch {| queue := [[sourceId]]; visited := {[sourceId]} |};;
    result ← searchLoop (searchFuel ls) targetId;
    mret (default [] result)
  | _ => mret []
  end.

Definition calculateCentralityRun : Run (gmap string jsnum) :=
  graph ← readGraph;
  match graph with
  | Some {| nodes := Some ns; links := Some _ |} =>
    writeCentrality ∅;;
    forEach ns (λ node,
      c ← readCentrality; writeCentrality (assign c (Node.id node) (Num 0)));;
    forEach ns (λ source,
      forEach ns (λ target,
        if decide (Node.id source ≠ Node.id target) then
          path ← findPathRun (Node.id source) (Node.id target);
          forEach (intermediates path) (λ k,
            c ← readCentrality; writeCentrality (increment c k))
        else mret tt));;
    let normalizer := normalizer (Z.of_nat (length ns)) in
    (if negb (Qle_bool normalizer 0) then
       c ← readCentrality; writeCentrality (divide normalizer <$> c)
     else mret tt);;
    readCentrality
  | _ => mret ∅
  end.

(** The function leaves the caller's graph object as it found it. *)
Definition preservesGraph {A} (m : Run A) : Prop :=
  ∀ σ, graphObject (m σ).2 = graphObject σ.

(** What a search leaves alone: the graph and the centrality object. *)
Definition sameOutside (σ σ' : Store) : Prop :=
  graphObject σ' = graphObject σ ∧ centralityObject σ' = centralityObject σ.

(** A store in which nothing but the graph has been created yet. *)
Definition freshStore (g : option Graph) : Store :=
  {| graphObject := g; adjacencyMap := ∅;
     searchState := {| queue := []; visited := ∅ |};
     centralityObject := ∅ |}.

(** ** Vocabulary of the statements *)

(** Consecutive entries of [p] are links, each taken from source to target. *)
Definition chain (ls : list Link.t) (p : list string) : Prop :=
  ∀ i a b, p !! i = Some a → p !! S i = Some b → edge ls a b.

(** [p] is a directed path from [a] to [b]; it has [length p - 1] hops. *)
Definition isPath (ls : list Link.t) (a b : string) (p : list string) : Prop :=
  head p = Some a ∧ last p = Some b ∧ chain ls p.

(** The neighbours that get enqueued, in order. *)
Fixpoint fresh (V : gset string) (ns : list string) : list string :=
  match ns with
  | [] => []
  | n :: ns' =>
    if decide (n ∈ V) then fresh V ns' else n :: fresh (V ∪ {[n]}) ns'
  end.

(** Invariants of the search loop started at [sourceId]. *)

(** Every queued path is a simple directed path from the source through
    visited ids only. *)
Definition simplePaths (ls : list Link.t) (sourceId : string) (st : Search) : Prop :=
  ∀ p, p ∈ queue st →
    head p = Some sourceId ∧ chain ls p ∧ NoDup p ∧ ∀ x, x ∈ p → x ∈ visited st.

(** The queue is [Qa ++ Qb], paths of [m] entries followed by paths of
    [S m] entries; each queued path is a shortest one to its end; every id
    reachable by a path of at most [m] entries is visited; and a visited id
    either still ends a queued path or has all its successors visited. *)
Record levels (ls : list Link.t) (sourceId : string) (m : nat)
    (Qa Qb : list (list string)) (V : gset string) : Prop := {
  lv_pos : (1 ≤ m)%nat;
  lv_front : ∀ p, p ∈ Qa → length p = m;
  lv_back : ∀ p, p ∈ Qb → length p = S m;
  lv_path : ∀ p, p ∈ Qa ++ Qb → ∃ w, isPath ls sourceId w p ∧ w ∈ V;
  lv_short : ∀ p w q, p ∈ Qa ++ Qb → last p = Some w →
               isPath ls sourceId w q → (length p ≤ length q)%nat;
  lv_near : ∀ q w, isPath ls sourceId w q → (length q ≤ m)%nat → w ∈ V;
  lv_closed : ∀ v, v ∈ V →
                (∃ p, p ∈ Qa ++ Qb ∧ last p = Some v) ∨ (∀ y, edge ls v y → y ∈ V)
}.

Definition shortestFirst (ls : list Link.t) (sourceId : string) (st : Search) : Prop :=
  ∃ m Qa Qb, queue st = Qa ++ Qb ∧ levels ls sourceId m Qa Qb (visited st).

(** Besides, a visited target is still waiting in the queue. *)
Definition targetQueued (ls : list Link.t) (sourceId targetId : string)
    (st : Search) : Prop :=
  shortestFirst ls sourceId st ∧
  (targetId ∈ visited st → ∃ p, p ∈ queue st ∧ last p = Some targetId).

(** Measure of the search loop: entries still to be dequeued plus link
    targets not yet visited. *)
Definition linkTargets (ls : list Link.t) : gset string :=
  list_to_set (Link.target <$> ls).

Definition remaining (ls : list Link.t) (st : Search) : nat :=
  (length (queue st) + size (linkTargets ls ∖ visited st))%nat.

(** Number of links traversed by a path given as the list of its ids. *)
Definition hops (p : list string) : nat := pred (length p).

(** The numbers stored in a centrality object are in lowest terms. *)
Definition reduced (c : gmap string jsnum) : Prop :=
  ∀ k q, c !! k = Some (Num q) → Qred q = q.

(** Sum of [value] over a list of links. *)
Definition sumOfValues (ls : list Link.t) : Z :=
  foldr (λ link sum, Link.value link + sum) 0 ls.

(** [a] may stand before [b] in descending order of [value]. *)
Definition byValueDesc (a b : Link.t) : Prop := (Link.value b ≤ Link.value a)%Z.

(** A link touches a node. *)
Definition touches (link : Link.t) (node : Node.t) : Prop :=
  Link.source link = Node.id node ∨ Link.target link = Node.id node.

(** The source delivered no usable record: loading failed, or the loaded
    graph has no node. *)
Definition noUsableRecords (env : FetchOutcome) : Prop :=
  match tryLoad env with
  | inl _ => True
  | inr data =>
    match graph data with
    | Some {| nodes := Some (_ :: _) |} => False
    | _ => True
    end
  end.

(** The centrality object holds the integer [z] under the key [k]. *)
Definition holds (k : string) (c : gmap string jsnum) (z : Z) : Prop :=
  ∃ q, c !! k = Some (Num q) ∧ (q == inject_Z z)%Q.

(** The ordered pair (source, target) is able to count [k]: its ends differ
    from each other and from [k]. *)
Definition canCount (k : string) (source target : Node.t) : Prop :=
  Node.id source ≠ Node.id target ∧ k ≠ Node.id source ∧ k ≠ Node.id target.

#[local] Instance canCount_dec k s t : Decision (canCount k s t).
Proof. unfold canCount. apply _. Defined.

(** ** The remaining utilities of the two files *)

(** *** filterByCategory *)

Definition filterByCategory (data : option Data) (category : string)
  : Completion (option Data) :=
  match data with
  | None => Normal data
  | Some d =>
    match graph d with
    | None => Normal data
    | Some g =>
      if decide (category = "all") then Normal data
      else
        match nodes g with
        | None => Throw typeError
        | Some ns =>
          let filteredNodes := filter (λ node, Node.category node = category) ns in
          let nodeIds : gset string := list_to_set (Node.id <$> filteredNodes) in
          match links g with
          | None => Throw typeError
          | Some ls =>
            let filteredLinks :=
              filter (λ link, Link.source link ∈ nodeIds ∧ Link.target link ∈ nodeIds) ls in
            Normal (Some {| graph := Some (graphOf filteredNodes filteredLinks);
                            metadata := metadata d;
                            bridge_communities := bridge_communities d;
                            summary_stats := summary_stats d |})
          end
        end
    end
  end.

(** *** getConnectedLinks, calculateNodeFlow *)

Module Connected.
Record t := mk {
  incoming : list Link.t;
  outgoing : list Link.t
}.
End Connected.

Definition getConnectedLinks (graph : option Graph) (nodeId : string) : Connected.t :=
  match graph with
  | Some {| links := Some ls |} =>
    {| Connected.incoming := filter (λ link, Link.target link = nodeId) ls;
       Connected.outgoing := filter (λ link, Link.source link = nodeId) ls |}
  | _ => {| Connected.incoming := []; Connected.outgoing := [] |}
  end.

Module Flow.
Record t := mk {
  incoming : Z;
  outgoing : Z;
  total : Z
}.
End Flow.

Definition calculateNodeFlow (graph : option Graph) (nodeId : string) : Flow.t :=
  let connected := getConnectedLinks graph nodeId in
  let incomingFlow := totalValue (Connected.incoming connected) in
  let outgoingFlow := totalValue (Connected.outgoing connected) in
  {| Flow.incoming := incomingFlow;
     Flow.outgoing := outgoingFlow;
     Flow.total := incomingFlow + outgoingFlow |}.

(** *** getTopFlows *)

(** [array.slice(0, n)] for an integer [n]: a negative [n] counts from the
    end of the array. *)
Definition sliceFromStart {A} (n : Z) (l : list A) : list A :=
  take (Z.to_nat (if bool_decide (n < 0) then Z.of_nat (length l) + n else n)) l.

(** [n] is [None] when the caller leaves it out (default 5). *)
Definition getTopFlows (links : option (list Link.t)) (n : option Z) : list Link.t :=
  match links with
  | None | Some [] => []
  | Some ls => sliceFromStart (default 5 n) (sortByValueDesc ls)
  end.

(** *** calculateNetworkStats *)

(** A JS [Map] from ids to numbers, in insertion order: [set] replaces the
    value of a present key where it stands and appends a new key. *)
Fixpoint mapSet (k : string) (v : Z) (m : list (string * Z)) : list (string * Z) :=
  match m with
  | [] => [(k, v)]
  | (k', v') :: m' =>
    if decide (k' = k) then (k, v) :: m' else (k', v') :: mapSet k v m'
  end.

Fixpoint mapGet (k : string) (m : list (string * Z)) : option Z :=
  match m with
  | [] => None
  | (k', v') :: m' => if decide (k' = k) then Some v' else mapGet k m'
  end.

(** [nodeDegrees.set(id, (nodeDegrees.get(id) || 0) + 1)] *)
Definition bumpDegree (m : list (string * Z)) (k : string) : list (string * Z) :=
  mapSet k (default 0 (mapGet k m) + 1) m.

(** The map after both [forEach] loops. *)
Definition nodeDegrees (ns : list Node.t) (ls : list Link.t) : list (string * Z) :=
  foldl (λ m link, bumpDegree (bumpDegree m (Link.source link)) (Link.target link))
    (foldl (λ m node, mapSet (Node.id node) 0 m) [] ns)
    ls.

(** [nodeDegrees.forEach((degree, nodeId) => ...)] starting from
    [mostConnected = null], [maxDegree = 0]. *)
Definition mostConnectedOf (degrees : list (string * Z)) : option string * Z :=
  foldl (λ best entry, if bool_decide (best.2 < entry.2) then (Some entry.1, entry.2)
                       else best)
    (None, 0) degrees.

(** The own enumerable properties an object spread copies. *)
Definition spreadFields (j : Json) : list (string * Json) :=
  match j with
  | JObj fields => fields
  | JArr elems => imap (λ i x, (pretty (N.of_nat i), x)) elems
  | JStr s =>
    imap (λ i c, (pretty (N.of_nat i), JStr (String c EmptyString)))
      (String.list_ascii_of_string s)
  | JNull | JNum _ => []
  end.

Definition jsonOfId (o : option string) : Json :=
  match o with
  | Some s => JStr s
  | None => JNull
  end.

(** What the destructuring [const { nodes = [], links = [] } = graph] finds
    under a property name.  This function tells a missing property from a
    [null] one, which the tests [!graph.nodes] of the other utilities (and
    so the record [Graph]) do not: the default steps in for [undefined]
    only, a [null] stays, and the array method called on it next throws. *)
Inductive Field (A : Type) :=
| Undefined
| Null
| Array (a : A).
Arguments Undefined {A}.
Arguments Null {A}.
Arguments Array {A} a.

(** The graph object as parsed JSON delivers it. *)
Module GraphJson.
Record t := mk {
  nodes : Field (list Node.t);
  links : Field (list Link.t)
}.
End GraphJson.

(** The binding [name = []] of the destructuring pattern; [None] is the
    [null] that is left. *)
Definition orEmpty {A} (field : Field (list A)) : option (list A) :=
  match field with
  | Undefined => Some []
  | Null => None
  | Array a => Some a
  end.

Definition typeErrorReduce : string :=
  "TypeError: Cannot read properties of null (reading 'reduce')".

Definition typeErrorForEach : string :=
  "TypeError: Cannot read properties of null (reading 'forEach')".

(** [graph] is [None] for a falsy argument, [metadata] is [None] when the
    argument is left out.  The object literal is a map from property names
    to values; later properties replace earlier ones of the same name.
    [links.reduce] is the first call on [links], [nodes.forEach] the first
    on [nodes]. *)
Definition calculateNetworkStats (graph : option GraphJson.t) (metadata : option Json)
  : Completion (gmap string Json) :=
  match graph with
  | None => Normal ∅
  | Some g =>
    match orEmpty (GraphJson.links g) with
    | None => Throw typeErrorReduce
    | Some links =>
      let totalFlow := totalValue links in
      let avgFlowPerLink :=
        match links with
        | [] => 0%Q
        | _ => (inject_Z totalFlow / inject_Z (Z.of_nat (length links)))%Q
        end in
      let avgTimeGap := averageTime links in
      match orEmpty (GraphJson.nodes g) with
      | None => Throw typeErrorForEach
      | Some nodes =>
        let best := mostConnectedOf (nodeDegrees nodes links) in
        Normal
          (foldl (λ obj field, <[field.1 := field.2]> obj)
             (<["maxDegree" := JNum (inject_Z best.2)]>
              (<["mostConnected" := jsonOfId best.1]>
              (<["avgTimeGap" := JNum (roundTenth avgTimeGap)]>
              (<["avgFlowPerLink" := JNum (roundTenth avgFlowPerLink)]>
              (<["totalFlow" := JNum (inject_Z totalFlow)]>
              (<["totalLinks" := JNum (inject_Z (Z.of_nat (length links)))]>
              (<["totalNodes" := JNum (inject_Z (Z.of_nat (length nodes)))]> ∅)))))))
             (spreadFields (default (JObj []) metadata)))
      end
    end
  end.

(** *** calculateLinkWidth *)

(** [Math.max(1, Math.min(8, 1 + normalized * 7))] with
    [normalized = (value - minValue) / (maxValue - minValue)].  When the two
    bounds coincide the quotient is [Infinity], [-Infinity] or [NaN], and the
    clamping turns these into 8, 1 and [NaN]. *)
Definition calculateLinkWidth (value minValue maxValue : Q) : jsnum :=
  if Qeq_bool maxValue minValue then
    match (value ?= minValue)%Q with
    | Gt => Num 8
    | Lt => Num 1
    | Eq => NaN
    end
  else
    let normalized := ((value - minValue) / (maxValue - minValue))%Q in
    Num (Qred (Qmax 1 (Qmin 8 (1 + normalized * (8 - 1))))%Q).

(** The call [calculateLinkWidth(link.value)] of the graph component. *)
Definition getLinkWidth (link : Link.t) : jsnum :=
  calculateLinkWidth (inject_Z (Link.value link)) 0 200.

(** ** The callers in the components *)

#[local] Instance completion_bind : MBind Completion :=
  λ A B f m, match m with Normal a => f a | Throw e => Throw e end.

(** The filtering effect of [App]: the value handed to [setFilteredData]
    for the loaded data, the selected category and the flow threshold. *)
Definition applyFilters (rawData : Data) (selectedCategory : string) (minFlow : Z)
  : Completion (option Data) :=
  filtered ← (if decide (selectedCategory ≠ "all")
              then filterByCategory (Some rawData) selectedCategory
              else Normal (Some rawData));
  if bool_decide (0 < minFlow) then filterByMinFlow filtered minFlow
  else Normal filtered.

(** [Set.add] on a set kept in insertion order. *)
Definition setAdd (x : string) (set : list string) : list string :=
  if decide (x ∈ set) then set else set ++ [x].

(** [handleNodeClick] of [App]: the values handed to [setHighlightNodes]
    and [setHighlightLinks] ([None] when there is no filtered data). *)
Definition handleNodeClick (filteredData : option Data) (communityId : string)
  : option (list string * list Link.t) :=
  match filteredData with
  | None => None
  | Some d =>
    let connected := getConnectedLinks (graph d) communityId in
    let incoming := Connected.incoming connected in
    let outgoing := Connected.outgoing connected in
    let connectedNodes :=
      foldl (λ set link, setAdd (Link.target link) set)
        (foldl (λ set link, setAdd (Link.source link) set) [communityId] incoming)
        outgoing in
    Some (connectedNodes, incoming ++ outgoing)
  end.

(** What [MigrationStats] shows. *)
Inductive StatsView :=
| SelectPrompt
| NoDataMessage
| NoConnectionsMessage
| Charts (stats : Stats) (incomingData outgoingData : list (string * Z * option Q)).

Definition migrationStats (selectedCommunity : option string) (graph : option Graph)
  : Completion StatsView :=
  match selectedCommunity, graph with
  | Some c, Some _ =>
    if decide (c = "") then Normal SelectPrompt
    else
      stats ← calculateCommunityStats graph selectedCommunity;
      match stats with
      | None => Normal NoDataMessage
      | Some stats =>
        if bool_decide (0 < count (incoming stats) ∨ 0 < count (outgoing stats))%nat
        then
          Normal (Charts stats
            ((λ link, (Link.source link, Link.value link, Link.avg_time_gap link))
               <$> top (incoming stats))
            ((λ link, (Link.target link, Link.value link, Link.avg_time_gap link))
               <$> top (outgoing stats)))
        else Normal NoConnectionsMessage
      end
  | _, _ => Normal SelectPrompt
  end.

Definition typeErrorFind : string :=
  "TypeError: Cannot read properties of undefined (reading 'find')".

(** What [CommunityDetail] shows: the node, the number of connections, the
    flows and net flow, and the two lists of at most ten links. *)
Record DetailView := mkDetailView {
  detailNode : Node.t;
  connections : nat;
  flow : Flow.t;
  net : Z;
  incomingList : list Link.t;
  outgoingList : list Link.t
}.

Definition communityDetail (community : option string) (graph : option Graph)
  : Completion (option DetailView) :=
  match community, graph with
  | Some c, Some g =>
    if decide (c = "") then Normal None
    else
      match nodes g with
      | None => Throw typeErrorFind
      | Some ns =>
        match list_find (λ n, Node.id n = c) ns with
        | None => Normal None
        | Some (_, node) =>
          let connected := getConnectedLinks graph c in
          let flow := calculateNodeFlow graph c in
          Normal (Some
            {| detailNode := node;
               connections := (length (Connected.incoming connected)
                               + length (Connected.outgoing connected))%nat;
               flow := flow;
               net := Flow.incoming flow - Flow.outgoing flow;
               incomingList :=
                 sliceFromStart 10 (sortByValueDesc (Connected.incoming connected));
               outgoingList :=
                 sliceFromStart 10 (sortByValueDesc (Connected.outgoing connected)) |})
        end
      end
  | _, _ => Normal None
  end.

(** ** More vocabulary *)

(** Some node of [ns] has the id [k]. *)
Definition isNodeId (ns : list Node.t) (k : string) : Prop :=
  ∃ node, node ∈ ns ∧ Node.id node = k.

(** No link dangles: both ends of every link are ids of nodes. *)
Definition wellLinked (ns : list Node.t) (ls : list Link.t) : Prop :=
  ∀ link, link ∈ ls →
    isNodeId ns (Link.source link) ∧ isNodeId ns (Link.target link).

(** No node is isolated: every node is an end of some link. *)
Definition allConnected (ns : list Node.t) (ls : list Link.t) : Prop :=
  ∀ node, node ∈ ns → ∃ link, link ∈ ls ∧ touches link node.

(** [d] with its graph replaced, as [{...data, graph: {nodes, links}}]. *)
Definition withGraph (d : Data) (ns : list Node.t) (ls : list Link.t) : Data :=
  {| graph := Some (graphOf ns ls);
     metadata := metadata d;
     bridge_communities := bridge_communities d;
     summary_stats := summary_stats d |}.

(** Sum of [f] over a list. *)
Definition sumOver {A} (f : A → Z) (l : list A) : Z :=
  foldr (λ x sum, f x + sum) 0 l.

(** The number of entries [slice(0, n)] keeps of an array of [len] entries. *)
Definition keptBySlice (n : Z) (len : nat) : nat :=
  if bool_decide (n < 0) then (len - Z.to_nat (- n))%nat else min (Z.to_nat n) len.

(** Number of link ends at the id [k]: a link from [k] to [k] counts twice. *)
Definition degreeOf (ls : list Link.t) (k : string) : Z :=
  Z.of_nat (length (filter (λ link, Link.source link = k) ls)
            + length (filter (λ link, Link.target link = k) ls)).

(** [k] is an end of some link. *)
Definition isLinkEnd (ls : list Link.t) (k : string) : Prop :=
  ∃ link, link ∈ ls ∧ (Link.source link = k ∨ Link.target link = k).

#[local] Instance isNodeId_dec ns k : Decision (isNodeId ns k).
Proof.
  refine (cast_if (decide (k ∈ Node.id <$> ns)));
    unfold isNodeId; rewrite list_elem_of_fmap in *; naive_solver.
Defined.

#[local] Instance isLinkEnd_dec ls k : Decision (isLinkEnd ls k).
Proof.
  refine (cast_if (decide (k ∈ (Link.source <$> ls) ++ (Link.target <$> ls))));
    unfold isLinkEnd; rewrite elem_of_app, !list_elem_of_fmap in *; naive_solver.
Defined.

(** The order in which ids enter the degree map: the node ids in array
    order, then for each link its source and its target, each id at its
    first occurrence. *)
Definition degreeKeys (ns : list Node.t) (ls : list Link.t) : list string :=
  foldl (λ keys link, setAdd (Link.target link) (setAdd (Link.source link) keys))
    (foldl (λ keys node, setAdd (Node.id node) keys) [] ns)
    ls.

(** The entry of an id that is not a node is absent, or it is [NaN] and the
    id is the target of a link. *)
Definition strayEntry (ls : list Link.t) (k : string) (c : gmap string jsnum) : Prop :=
  c !! k = None ∨ (c !! k = Some NaN ∧ k ∈ linkTargets ls).

(** ** Sample graphs *)

Definition lk (s t : string) (v : Z) : Link.t := Link.mk s t v None None.
Definition nd (i : string) : Node.t := Node.mk i i "other" 0.

(** The chain A -> B -> C. *)
Definition chainABC : Graph :=
  graphOf [nd "A"; nd "B"; nd "C"] [lk "A" "B" 1; lk "B" "C" 1].

(** B linked with A and with C in both directions. *)
Definition hubABC : Graph :=
  graphOf [nd "A"; nd "B"; nd "C"]
    [lk "A" "B" 1; lk "B" "A" 1; lk "B" "C" 1; lk "C" "B" 1].

(** * Properties *)

(** ** The adjacency map lists the targets of a node's links, in order *)

Section Adjacency.

Lemma neighborsOf_addLink adj link a :
  neighborsOf (addLink adj link) a =
    if decide (Link.source link = a) then neighborsOf adj a ++ [Link.target link]
    else neighborsOf adj a.
Proof.
  unfold neighborsOf, addLink.
  destruct (decide (Link.source link = a)) as [->|Hne].
  - rewrite lookup_insert_eq. simpl.
    destruct (decide (is_Some (adj !! a))) as [_|Hn]; [done|].
    rewrite lookup_insert_eq. simpl.
    apply eq_None_not_Some in Hn. by rewrite Hn.
  - rewrite lookup_insert_ne by done.
    destruct (decide _); [done|]. by rewrite lookup_insert_ne.
Qed.

Lemma neighborsOf_build ls a :
  neighborsOf (buildAdjacency ls) a =
    Link.target <$> filter (λ l, Link.source l = a) ls.
Proof.
  unfold buildAdjacency.
  induction ls as [|l ls IH] using rev_ind; [done|].
  rewrite foldl_snoc, neighborsOf_addLink, filter_app, fmap_app, IH.
  rewrite filter_cons, filter_nil.
  destruct (decide (Link.source l = a)); simpl; [done|].
  by rewrite app_nil_r.
Qed.

Lemma elem_of_neighborsOf ls a b :
  b ∈ neighborsOf (buildAdjacency ls) a ↔ edge ls a b.
Proof.
  rewrite neighborsOf_build, list_elem_of_fmap. unfold edge.
  split.
  - intros (l & -> & Hl). apply list_elem_of_filter in Hl as [Hs Hl]. eauto.
  - intros (l & Hl & Hs & Ht). exists l. split; [done|].
    apply list_elem_of_filter. done.
Qed.

End Adjacency.

(** ** The inner loop pushes the unvisited neighbours, each once *)

Lemma elem_of_fresh V ns x : x ∈ fresh V ns ↔ x ∈ ns ∧ x ∉ V.
Proof.
  revert V. induction ns as [|n ns IH]; intros V; simpl.
  - set_solver.
  - destruct (decide (n ∈ V)).
    + rewrite IH. set_solver.
    + rewrite elem_of_cons, IH. split.
      * intros [->|[? ?]]; set_solver.
      * intros [Hx ?]. apply elem_of_cons in Hx as [->|?]; [by left|].
        destruct (decide (x = n)) as [->|]; [by left|]. right. set_solver.
  Qed.

Lemma length_fresh V ns (T : gset string) :
  (∀ x, x ∈ ns → x ∈ T) →
  (length (fresh V ns) + size (T ∖ (V ∪ list_to_set (fresh V ns))) = size (T ∖ V))%nat.
Proof.
  revert V. induction ns as [|n ns IH]; intros V HT; simpl.
  - f_equal. set_solver.
  - destruct (decide (n ∈ V)).
    + apply IH. intros x Hx. apply HT. by right.
    + specialize (IH (V ∪ {[n]})).
      assert (V ∪ list_to_set (n :: fresh (V ∪ {[n]}) ns)
              = (V ∪ {[n]}) ∪ list_to_set (C:=gset string) (fresh (V ∪ {[n]}) ns))
        as -> by set_solver.
      assert (size (T ∖ V) = S (size (T ∖ (V ∪ {[n]})))) as ->.
      { assert (T ∖ V = {[n]} ∪ T ∖ (V ∪ {[n]})) as ->.
        { apply set_eq. intros x. destruct (decide (x = n)) as [->|].
          - assert (n ∈ T) by (apply HT; by left). set_solver.
          - set_solver. }
        rewrite size_union by set_solver. by rewrite size_singleton. }
      rewrite <- IH by (intros x Hx; apply HT; by right).
      cbn [length]. lia.
Qed.

Lemma foldl_visit path st ns :
  foldl (visit path) st ns =
    {| queue := queue st ++ ((λ n, path ++ [n]) <$> fresh (visited st) ns);
       visited := visited st ∪ list_to_set (fresh (visited st) ns) |}.
Proof.
  revert st. induction ns as [|n ns IH]; intros [Q V]; simpl.
  - rewrite app_nil_r. f_equal. set_solver.
  - unfold visit at 2. simpl. destruct (decide (n ∈ V)).
    + by rewrite IH.
    + rewrite IH. simpl. rewrite <- app_assoc. simpl. f_equal. set_solver.
Qed.

(** ** The search loop ends within the fuel [findPath] gives it *)

Lemma size_list_to_set_le (l : list string) :
  (size (list_to_set (C:=gset string) l) ≤ length l)%nat.
Proof.
  induction l as [|x l IH]; simpl.
  - done.
  - rewrite size_union_alt, size_singleton.
    assert (size (list_to_set (C:=gset string) l ∖ {[x]}) ≤ size (list_to_set (C:=gset string) l))%nat
      by (apply subseteq_size; set_solver).
    lia.
Qed.

Section Termination.
Variable ls : list Link.t.
Variable targetId : string.

Let adj := buildAdjacency ls.

Lemma neighborsOf_targets a x : x ∈ neighborsOf adj a → x ∈ linkTargets ls.
Proof.
  intros Hx. apply elem_of_neighborsOf in Hx as (l & Hl & _ & <-).
  apply elem_of_list_to_set, list_elem_of_fmap. eauto.
Qed.

Lemma remaining_expand path Q V a :
  remaining ls (foldl (visit path) {| queue := Q; visited := V |} (neighborsOf adj a))
  = remaining ls {| queue := Q; visited := V |}.
Proof.
  rewrite foldl_visit. unfold remaining. simpl.
  rewrite length_app, length_fmap, <- Nat.add_assoc.
  f_equal. apply length_fresh. apply neighborsOf_targets.
Qed.

Lemma bfs_fuel_enough fuel st :
  (remaining ls st < fuel)%nat → is_Some (bfs fuel adj targetId st).
Proof.
  revert st. induction fuel as [|fuel IH]; intros [Q V] Hlt; [lia|].
  simpl. destruct Q as [|path rest]; [eauto|].
  assert (remaining ls {| queue := rest; visited := V |} < fuel)%nat
    by (unfold remaining in *; simpl in *; lia).
  destruct (last path) as [cur|]; [|by apply IH].
  destruct (decide (cur = targetId)); [eauto|].
  apply IH. by rewrite remaining_expand.
Qed.

Lemma remaining_initial sourceId :
  (remaining ls {| queue := [[sourceId]]; visited := {[sourceId]} |} < searchFuel ls)%nat.
Proof.
  unfold remaining, searchFuel. simpl.
  assert (size (linkTargets ls ∖ {[sourceId]}) ≤ length ls)%nat; [|lia].
  etrans; [apply subseteq_size with (Y := linkTargets ls); set_solver|].
  unfold linkTargets. etrans; [apply size_list_to_set_le|]. by rewrite length_fmap.
Qed.

End Termination.

(** ** Paths as lists of ids *)

Section Chains.
Variable ls : list Link.t.

Lemma chain_singleton x : chain ls [x].
Proof. intros i a b _ Hb. destruct i; simpl in Hb; discriminate. Qed.

Lemma chain_app_l p q : chain ls (p ++ q) → chain ls p.
Proof.
  intros Hc i a b Ha Hb.
  apply (Hc i); by apply lookup_app_l_Some.
Qed.

Lemma chain_snoc_edge p a b :
  chain ls (p ++ [b]) → last p = Some a → edge ls a b.
Proof.
  intros Hc Hl. rewrite last_lookup in Hl.
  assert (length p ≠ 0)%nat as Hlen
    by (intros H0; apply nil_length_inv in H0; by subst).
  apply (Hc (pred (length p))).
  - by apply lookup_app_l_Some.
  - replace (S (pred (length p))) with (length p) by lia.
    by rewrite list_lookup_middle.
Qed.

Lemma chain_snoc p a b :
  chain ls p → last p = Some a → edge ls a b → chain ls (p ++ [b]).
Proof.
  intros Hc Hl He i x y Hx Hy.
  apply lookup_app_Some in Hy as [Hy|[Hge Hy]].
  - apply (Hc i); [|done].
    rewrite lookup_app_l in Hx; [done|].
    apply lookup_lt_Some in Hy. lia.
  - apply list_lookup_singleton_Some in Hy as [Hi ->].
    assert (i = pred (length p)) as -> by lia.
    rewrite lookup_app_l in Hx by lia.
    rewrite <- last_lookup, Hl in Hx. by simplify_eq.
Qed.

Lemma isPath_singleton a : isPath ls a a [a].
Proof. split_and!; [done..|apply chain_singleton]. Qed.

Lemma isPath_length a b p : isPath ls a b p → (1 ≤ length p)%nat.
Proof. intros [Hh _]. destruct p; simpl in *; [discriminate|lia]. Qed.

Lemma isPath_snoc a b c p :
  isPath ls a b p → edge ls b c → isPath ls a c (p ++ [c]).
Proof.
  intros (Hh & Hl & Hc) He. split_and!.
  - by rewrite head_app, Hh.
  - apply last_snoc.
  - by apply chain_snoc with b.
Qed.

(** A path of at least two entries extends a path one hop shorter. *)
Lemma isPath_snoc_inv a c q :
  isPath ls a c q → (2 ≤ length q)%nat →
  ∃ q' b, q = q' ++ [c] ∧ isPath ls a b q' ∧ edge ls b c.
Proof.
  intros (Hh & Hl & Hc) Hlen.
  apply last_Some in Hl as [q' ->].
  rewrite length_app in Hlen. simpl in Hlen.
  destruct (last q') as [b|] eqn:Hb.
  2:{ apply last_None in Hb. subst. simpl in Hlen. lia. }
  exists q', b. split; [done|]. split; [|by eapply chain_snoc_edge].
  split; [|split; [done|by eapply chain_app_l]].
  rewrite head_app in Hh. destruct q'; [discriminate|done].
Qed.

End Chains.

(** ** Invariant reasoning for the search loop *)

Section Search.
Variable ls : list Link.t.
Variables sourceId targetId : string.

Let adj := buildAdjacency ls.

(** A non-empty result is the head of the queue in a state reached by
    the loop, and it ends in the target. *)
Lemma bfs_found (I : Search → Prop) :
  (∀ path rest V cur,
      I {| queue := path :: rest; visited := V |} →
      last path = Some cur → cur ≠ targetId →
      I (foldl (visit path) {| queue := rest; visited := V |} (neighborsOf adj cur))) →
  (∀ path rest V,
      I {| queue := path :: rest; visited := V |} → last path = None →
      I {| queue := rest; visited := V |}) →
  ∀ fuel st p, I st → bfs fuel adj targetId st = Some p → p ≠ [] →
    ∃ rest V, I {| queue := p :: rest; visited := V |} ∧ last p = Some targetId.
Proof.
  intros Hstep Hskip fuel.
  induction fuel as [|fuel IH]; intros [Q V] p HI Hrun Hne; [discriminate|].
  simpl in Hrun. destruct Q as [|path rest]; [by simplify_eq|].
  destruct (last path) as [cur|] eqn:Hlast.
  - destruct (decide (cur = targetId)) as [->|Hcur].
    + simplify_eq. eauto.
    + exact (IH _ p (Hstep path rest V cur HI Hlast Hcur) Hrun Hne).
  - exact (IH _ p (Hskip path rest V HI Hlast) Hrun Hne).
Qed.

(** An empty result comes from a state reached by the loop in which the
    queue is empty. *)
Lemma bfs_exhausted (I : Search → Prop) :
  (∀ path rest V cur,
      I {| queue := path :: rest; visited := V |} →
      last path = Some cur → cur ≠ targetId →
      I (foldl (visit path) {| queue := rest; visited := V |} (neighborsOf adj cur))) →
  (∀ path rest V,
      I {| queue := path :: rest; visited := V |} → last path = None →
      I {| queue := rest; visited := V |}) →
  ∀ fuel st, I st → bfs fuel adj targetId st = Some [] →
    ∃ V, I {| queue := []; visited := V |}.
Proof.
  intros Hstep Hskip fuel.
  induction fuel as [|fuel IH]; intros [Q V] HI Hrun; [discriminate|].
  simpl in Hrun. destruct Q as [|path rest]; [eauto|].
  destruct (last path) as [cur|] eqn:Hlast.
  - destruct (decide (cur = targetId)) as [->|Hcur].
    + simplify_eq.
    + exact (IH _ (Hstep path rest V cur HI Hlast Hcur) Hrun).
  - exact (IH _ (Hskip path rest V HI Hlast) Hrun).
Qed.

(** *** Every queued path is a simple path from the source *)

Let simplePaths := simplePaths ls sourceId.

Lemma simplePaths_initial :
  simplePaths {| queue := [[sourceId]]; visited := {[sourceId]} |}.
Proof.
  intros p Hp. apply list_elem_of_singleton in Hp as ->.
  split_and!; [done|apply chain_singleton|apply NoDup_singleton|].
  intros x Hx. apply list_elem_of_singleton in Hx. set_solver.
Qed.

Lemma simplePaths_step path rest V cur :
  simplePaths {| queue := path :: rest; visited := V |} →
  last path = Some cur →
  simplePaths (foldl (visit path) {| queue := rest; visited := V |} (neighborsOf adj cur)).
Proof.
  intros HI Hlast. rewrite foldl_visit. simpl. intros p Hp. simpl in *.
  apply elem_of_app in Hp as [Hp|Hp].
  - destruct (HI p) as (? & ? & ? & Hsub); [by right|].
    split_and!; [done..|]. intros x Hx. apply Hsub in Hx. set_solver.
  - apply list_elem_of_fmap in Hp as (n & -> & Hn).
    apply elem_of_fresh in Hn as [Hn HnV].
    destruct (HI path) as (Hh & Hc & Hnd & Hsub); [by left|].
    split_and!.
    + by rewrite head_app, Hh.
    + apply chain_snoc with cur; [done..|]. by apply elem_of_neighborsOf.
    + apply NoDup_app. split_and!; [done| |apply NoDup_singleton].
      intros x Hx Hxn. apply list_elem_of_singleton in Hxn as ->.
      by apply HnV, Hsub.
    + intros x Hx. apply elem_of_app in Hx as [Hx|Hx].
      * apply Hsub in Hx. set_solver.
      * apply list_elem_of_singleton in Hx as ->.
        apply elem_of_union_r, elem_of_list_to_set, elem_of_fresh. done.
Qed.

Lemma simplePaths_tail path rest V :
  simplePaths {| queue := path :: rest; visited := V |} →
  simplePaths {| queue := rest; visited := V |}.
Proof. intros HI p Hp. apply HI. by right. Qed.

Lemma bfs_simple fuel p :
  bfs fuel adj targetId {| queue := [[sourceId]]; visited := {[sourceId]} |} = Some p →
  p ≠ [] →
  isPath ls sourceId targetId p ∧ NoDup p.
Proof.
  intros Hrun Hne.
  destruct (bfs_found simplePaths) with (fuel := fuel) (p := p)
    (st := {| queue := [[sourceId]]; visited := {[sourceId]} |})
    as (rest & V & HI & Hlast); try done.
  - intros. by eapply simplePaths_step.
  - intros. by eapply simplePaths_tail.
  - apply simplePaths_initial.
  - destruct (HI p) as (? & ? & ? & _); [by left|]. by split.
Qed.

(** *** Paths are dequeued in order of length, shortest first *)

Let levels := levels ls sourceId.

Lemma levels_initial : levels 1%nat [[sourceId]] [] {[sourceId]}.
Proof.
  split.
  - done.
  - intros p Hp. by apply list_elem_of_singleton in Hp as ->.
  - intros p Hp. by apply elem_of_nil in Hp.
  - intros p Hp. apply list_elem_of_singleton in Hp as ->.
    exists sourceId. split; [apply isPath_singleton|set_solver].
  - intros p w q Hp _ Hq. apply list_elem_of_singleton in Hp as ->.
    by apply isPath_length in Hq.
  - intros q w (Hh & Hl & _) Hlen.
    destruct q as [|x [|y q]]; simpl in *; [discriminate| |lia].
    simplify_eq. set_solver.
  - intros v Hv. left. exists [sourceId]. split; [by left|].
    apply elem_of_singleton in Hv as ->. done.
Qed.

Lemma levels_shift m Qb V : levels m [] Qb V → levels (S m) Qb [] V.
Proof.
  intros [Hpos _ Hback Hpath Hshort Hnear Hclosed]. simpl in *.
  split; try rewrite app_nil_r; try done.
  - lia.
  - intros p Hp. by apply elem_of_nil in Hp.
  - intros q w Hq Hlen.
    destruct (decide (length q ≤ m)%nat) as [|Hgt]; [by eapply Hnear|].
    destruct (isPath_snoc_inv ls sourceId w q) as (q' & b & -> & Hq' & He);
      [done|lia|].
    rewrite length_app in Hlen. simpl in Hlen.
    assert (b ∈ V) as Hb by (eapply Hnear; [done|lia]).
    destruct (Hclosed b Hb) as [(p & Hp & Hlast)|Hsucc]; [|by apply Hsucc].
    specialize (Hshort p b q' Hp Hlast Hq'). apply Hback in Hp. lia.
Qed.

Lemma levels_step m path Qa Qb V cur :
  levels m (path :: Qa) Qb V →
  last path = Some cur →
  levels m Qa (Qb ++ ((λ n, path ++ [n]) <$> fresh V (neighborsOf adj cur)))
    (V ∪ list_to_set (fresh V (neighborsOf adj cur))).
Proof.
  intros [Hpos Hfront Hback Hpath Hshort Hnear Hclosed] Hlast.
  assert (isPath ls sourceId cur path) as Hcur.
  { destruct (Hpath path) as (w & Hw & _); [by left|].
    destruct Hw as (? & Hl & ?). rewrite Hlast in Hl. by simplify_eq. }
  assert (∀ p, p ∈ Qa ++ Qb → p ∈ (path :: Qa) ++ Qb) as Hold
    by (intros p Hp; simpl; by right).
  assert (∀ p, p ∈ Qa ++ Qb ++ ((λ n, path ++ [n]) <$> fresh V (neighborsOf adj cur)) →
            p ∈ Qa ++ Qb ∨
            ∃ n, p = path ++ [n] ∧ edge ls cur n ∧ n ∉ V) as Hsplit.
  { intros p Hp. rewrite app_assoc in Hp.
    apply elem_of_app in Hp as [Hp|Hp]; [by left|right].
    apply list_elem_of_fmap in Hp as (n & -> & Hn).
    apply elem_of_fresh in Hn as [Hn HnV].
    exists n. split_and!; [done| |done]. by apply elem_of_neighborsOf. }
  split.
  - done.
  - intros p Hp. apply Hfront. by right.
  - intros p Hp. apply elem_of_app in Hp as [Hp|Hp]; [by apply Hback|].
    apply list_elem_of_fmap in Hp as (n & -> & _).
    rewrite length_app. simpl. rewrite (Hfront path) by (by left). lia.
  - intros p Hp. apply Hsplit in Hp as [Hp|(n & -> & He & HnV)].
    + destruct (Hpath p (Hold p Hp)) as (w & Hw & HwV).
      exists w. split; [done|set_solver].
    + exists n. split; [by eapply isPath_snoc|].
      apply elem_of_union_r, elem_of_list_to_set, elem_of_fresh.
      split; [by apply elem_of_neighborsOf|done].
  - intros p w q Hp Hl Hq. apply Hsplit in Hp as [Hp|(n & -> & He & HnV)].
    + by eapply Hshort; [apply Hold| |].
    + rewrite last_snoc in Hl. simplify_eq.
      rewrite length_app. simpl. rewrite (Hfront path) by (by left).
      destruct (decide (length q ≤ m)%nat); [|lia].
      exfalso. apply HnV. by eapply Hnear.
  - intros q w Hq Hlen. apply elem_of_union_l. by eapply Hnear.
  - intros v Hv.
    apply elem_of_union in Hv as [Hv|Hv].
    + destruct (Hclosed v Hv) as [(p & Hp & Hl)|Hsucc].
      * simpl in Hp. apply elem_of_cons in Hp as [->|Hp].
        -- right. intros y Hy. rewrite Hlast in Hl. simplify_eq.
           destruct (decide (y ∈ V)); [set_solver|].
           apply elem_of_union_r, elem_of_list_to_set, elem_of_fresh.
           split; [by apply elem_of_neighborsOf|done].
        -- left. exists p. split; [|done].
           rewrite app_assoc. apply elem_of_app. by left.
      * right. intros y Hy. apply elem_of_union_l. by apply Hsucc.
    + apply elem_of_list_to_set in Hv.
      left. exists (path ++ [v]). split; [|apply last_snoc].
      rewrite app_assoc. apply elem_of_app. right.
      by apply list_elem_of_fmap_2'  with v.
Qed.

Let shortestFirst := shortestFirst ls sourceId.

Lemma shortestFirst_front path rest V :
  shortestFirst {| queue := path :: rest; visited := V |} →
  ∃ m Qa Qb, rest = Qa ++ Qb ∧ levels m (path :: Qa) Qb V.
Proof.
  intros (m & Qa & Qb & HQ & Hlv). simpl in *.
  destruct Qa as [|p Qa]; simpl in HQ; subst.
  - exists (S m), rest, []. split; [by rewrite app_nil_r|].
    by apply levels_shift.
  - simplify_eq. eauto.
Qed.

Lemma shortestFirst_step path rest V cur :
  shortestFirst {| queue := path :: rest; visited := V |} →
  last path = Some cur →
  shortestFirst (foldl (visit path) {| queue := rest; visited := V |} (neighborsOf adj cur)).
Proof.
  intros HI Hlast.
  apply shortestFirst_front in HI as (m & Qa & Qb & -> & Hlv).
  rewrite foldl_visit. simpl.
  exists m, Qa, (Qb ++ ((λ n, path ++ [n]) <$> fresh V (neighborsOf adj cur))).
  simpl. split; [by rewrite app_assoc|]. by apply levels_step.
Qed.

Lemma shortestFirst_nonempty path rest V :
  shortestFirst {| queue := path :: rest; visited := V |} → last path ≠ None.
Proof.
  intros HI. apply shortestFirst_front in HI as (m & Qa & Qb & -> & Hlv).
  destruct (lv_path _ _ _ _ _ _ Hlv path) as (w & (_ & Hl & _) & _); [by left|].
  by rewrite Hl.
Qed.

Lemma bfs_shortest fuel p q :
  bfs fuel adj targetId {| queue := [[sourceId]]; visited := {[sourceId]} |} = Some p →
  p ≠ [] →
  isPath ls sourceId targetId q →
  (length p ≤ length q)%nat.
Proof.
  intros Hrun Hne Hq.
  destruct (bfs_found shortestFirst) with (fuel := fuel) (p := p)
    (st := {| queue := [[sourceId]]; visited := {[sourceId]} |})
    as (rest & V & HI & Hlast); try done.
  - intros. by eapply shortestFirst_step.
  - intros path rest V HI Hl. by apply shortestFirst_nonempty in HI.
  - exists 1%nat, [[sourceId]], []. split; [done|apply levels_initial].
  - apply shortestFirst_front in HI as (m & Qa & Qb & -> & Hlv).
    eapply (lv_short _ _ _ _ _ _ Hlv); [by left|done..].
Qed.

(** *** The search does not give up while the target is reachable *)

Let targetQueued := targetQueued ls sourceId targetId.

Lemma targetQueued_step path rest V cur :
  targetQueued {| queue := path :: rest; visited := V |} →
  last path = Some cur → cur ≠ targetId →
  targetQueued (foldl (visit path) {| queue := rest; visited := V |} (neighborsOf adj cur)).
Proof.
  intros [Hsf Htq] Hlast Hcur. split; [by apply shortestFirst_step|].
  rewrite foldl_visit. simpl in *. intros Ht.
  apply elem_of_union in Ht as [Ht|Ht].
  - destruct (Htq Ht) as (p & Hp & Hl).
    apply elem_of_cons in Hp as [->|Hp]; [congruence|].
    exists p. split; [|done]. apply elem_of_app. by left.
  - apply elem_of_list_to_set in Ht.
    exists (path ++ [targetId]). split; [|apply last_snoc].
    apply elem_of_app. right. by apply list_elem_of_fmap_2' with targetId.
Qed.

Lemma bfs_complete fuel q :
  bfs fuel adj targetId {| queue := [[sourceId]]; visited := {[sourceId]} |} = Some [] →
  ¬ isPath ls sourceId targetId q.
Proof.
  intros Hrun Hq.
  destruct (bfs_exhausted targetQueued) with (fuel := fuel)
    (st := {| queue := [[sourceId]]; visited := {[sourceId]} |})
    as (V & (m & Qa & Qb & HQ & Hlv) & Htq); try done.
  - intros. by eapply targetQueued_step.
  - intros path rest V [HI _] Hl. by apply shortestFirst_nonempty in HI.
  - split.
    + exists 1%nat, [[sourceId]], []. split; [done|apply levels_initial].
    + simpl. intros Ht. apply elem_of_singleton in Ht.
      exists [sourceId]. split; [by left|by subst].
  - simpl in *. symmetry in HQ. apply app_eq_nil in HQ as [-> ->].
    destruct Hlv as [Hpos _ _ _ _ Hnear Hclosed]. simpl in *.
    assert (∀ n q w, length q = n → isPath ls sourceId w q → w ∈ V) as Hall.
    { intros n. induction n as [|n IHn]; intros q' w Hlen Hq'.
      - apply isPath_length in Hq'. lia.
      - destruct (decide (length q' ≤ 1)%nat); [eapply Hnear; [done|lia]|].
        destruct (isPath_snoc_inv ls sourceId w q') as (q'' & b & -> & Hq'' & He);
          [done|lia|].
        rewrite length_app in Hlen. simpl in Hlen.
        assert (b ∈ V) as Hb by (apply (IHn q''); [lia|done]).
        destruct (Hclosed b Hb) as [(p & Hp & _)|Hsucc]; [|by apply Hsucc].
        by apply elem_of_nil in Hp. }
    destruct Htq as (p & Hp & _); [by eapply Hall|].
    by apply elem_of_nil in Hp.
Qed.

End Search.

(** ** findPath *)

Section FindPath.
Variable ns : list Node.t.
Variable ls : list Link.t.

Let g := Some (graphOf ns ls).

(** The loop always ends within [searchFuel]: the result of [findPath]
    is the result of the loop. *)
Lemma findPath_run s t :
  bfs (searchFuel ls) (buildAdjacency ls) t
    {| queue := [[s]]; visited := {[s]} |} = Some (findPath g s t).
Proof.
  unfold g, findPath, graphOf.
  destruct (bfs_fuel_enough ls t (searchFuel ls)
              {| queue := [[s]]; visited := {[s]} |}) as [p Hp].
  - apply remaining_initial.
  - by rewrite Hp.
Qed.

Lemma findPath_simple s t :
  findPath g s t ≠ [] →
  isPath ls s t (findPath g s t) ∧ NoDup (findPath g s t).
Proof. intros Hne. eapply bfs_simple; [apply findPath_run|done]. Qed.

Lemma findPath_self a : findPath g a a = [a].
Proof.
  unfold g, findPath, graphOf, searchFuel. simpl.
  by rewrite decide_True.
Qed.

Lemma findPath_unreachable a b :
  (¬ ∃ p, isPath ls a b p) → findPath g a b = [].
Proof.
  intros Hno. destruct (decide (findPath g a b = [])) as [|Hne]; [done|].
  destruct Hno. exists (findPath g a b). by apply findPath_simple.
Qed.

(** [findPath] finds a path whenever there is one. *)
Lemma findPath_reachable s t q :
  isPath ls s t q → findPath g s t ≠ [].
Proof.
  intros Hq He. pose proof (findPath_run s t) as Hrun. rewrite He in Hrun.
  by eapply bfs_complete.
Qed.

End FindPath.

(** C3: for every graph and id [a], [findPath(g, a, a) = [a]]; and when no
    directed path leads from [a] to [b], [findPath(g, a, b)] is the empty
    sequence (an ordinary return value, not an error). *)
Theorem findPath_self_and_unreachable (ns : list Node.t) (ls : list Link.t) (a b : string) :
  findPath (Some (graphOf ns ls)) a a = [a] ∧
  ((¬ ∃ p, isPath ls a b p) → findPath (Some (graphOf ns ls)) a b = []).
Proof. split; [apply findPath_self|apply findPath_unreachable]. Qed.

(** In the chain A -> B -> C nothing leaves C. *)
Lemma chainABC_no_path_from_C :
  ¬ ∃ p, isPath [lk "A" "B" 1; lk "B" "C" 1] "C" "A" p.
Proof.
  intros (p & Hh & Hl & Hc).
  destruct p as [|x [|y p]]; simpl in *; simplify_eq.
  destruct (Hc 0%nat "C" y) as (l & Hin & Hs & _); [done..|].
  repeat (apply elem_of_cons in Hin as [->|Hin]; [discriminate|]).
  by apply elem_of_nil in Hin.
Qed.

Lemma findPath_self_and_unreachable_witness :
  findPath (Some chainABC) "C" "C" = ["C"] ∧ findPath (Some chainABC) "C" "A" = [].
Proof.
  destruct (findPath_self_and_unreachable
              [nd "A"; nd "B"; nd "C"] [lk "A" "B" 1; lk "B" "C" 1] "C" "A")
    as [Hself Hnone].
  split; [exact Hself|exact (Hnone chainABC_no_path_from_C)].
Defined.

(** C4: for [s ≠ t], a non-empty result of [findPath(g, s, t)] starts at
    [s], ends at [t], follows links of [g] from source to target at every
    step, and no directed path from [s] to [t] has fewer hops. *)
Theorem findPath_shortest (ns : list Node.t) (ls : list Link.t) (s t : string) :
  s ≠ t →
  findPath (Some (graphOf ns ls)) s t ≠ [] →
  let p := findPath (Some (graphOf ns ls)) s t in
  head p = Some s ∧ last p = Some t ∧
  (∀ i a b, p !! i = Some a → p !! S i = Some b →
            ∃ l, l ∈ ls ∧ Link.source l = a ∧ Link.target l = b) ∧
  (∀ q, isPath ls s t q → (hops p ≤ hops q)%nat).
Proof.
  intros _ Hne p.
  destruct (findPath_simple ns ls s t Hne) as [(Hh & Hl & Hc) _].
  split_and!; [done..|].
  intros q Hq. unfold hops. apply Nat.pred_le_mono.
  eapply bfs_shortest; [apply findPath_run|done..].
Qed.

Lemma findPath_shortest_witness :
  let p := findPath (Some chainABC) "A" "C" in
  "A" ≠ "C" ∧ p ≠ [] ∧
  head p = Some "A" ∧ last p = Some "C" ∧
  (∀ i a b, p !! i = Some a → p !! S i = Some b →
            ∃ l, l ∈ [lk "A" "B" 1; lk "B" "C" 1] ∧ Link.source l = a ∧ Link.target l = b) ∧
  (∀ q, isPath [lk "A" "B" 1; lk "B" "C" 1] "A" "C" q → (hops p ≤ hops q)%nat).
Proof.
  assert ("A" ≠ "C") as Hne by discriminate.
  assert (findPath (Some chainABC) "A" "C" ≠ []) as Hp by (vm_compute; discriminate).
  split; [exact Hne|]. split; [exact Hp|].
  exact (findPath_shortest [nd "A"; nd "B"; nd "C"] [lk "A" "B" 1; lk "B" "C" 1]
           "A" "C" Hne Hp).
Defined.

(** ** calculateCentrality *)

Lemma foldl_preserves {A B} (P : A → Prop) (f : A → B → A) :
  (∀ a b, P a → P (f a b)) → ∀ l a, P a → P (foldl f a l).
Proof. intros Hf l. induction l as [|b l IH]; intros a Ha; simpl; auto. Qed.

Section Counting.

(** The ids strictly between the two ends of a simple path differ from
    both ends. *)
Lemma intermediates_inner p s t x :
  NoDup p → head p = Some s → last p = Some t →
  x ∈ intermediates p → x ≠ s ∧ x ≠ t.
Proof.
  intros Hnd Hh Hl Hx. unfold intermediates in Hx.
  apply elem_of_take in Hx as (i & Hi & Hlt).
  rewrite lookup_drop in Hi.
  rewrite head_lookup in Hh. rewrite last_lookup in Hl.
  split; intros ->.
  - pose proof (NoDup_lookup _ _ _ _ Hnd Hi Hh). lia.
  - pose proof (NoDup_lookup _ _ _ _ Hnd Hi Hl). lia.
Qed.

Lemma intermediates_nil : intermediates [] = [].
Proof. done. Qed.

Lemma assign_other c k k' x : k ≠ k' → assign c k' x !! k = c !! k.
Proof.
  intros Hne. unfold assign. destruct (decide _); [done|].
  by rewrite lookup_insert_ne.
Qed.

Lemma assign_same c k x : k ≠ "__proto__" → assign c k x !! k = Some x.
Proof. intros Hk. unfold assign. by rewrite decide_False, lookup_insert_eq. Qed.

(** No assignment creates the property ['__proto__']. *)
Lemma assign_proto c k x :
  c !! "__proto__" = None → assign c k x !! "__proto__" = None.
Proof.
  intros Hc. unfold assign. destruct (decide _) as [|Hne]; [done|].
  by rewrite lookup_insert_ne.
Qed.

Lemma increment_other c k k' : k ≠ k' → increment c k' !! k = c !! k.
Proof. apply assign_other. Qed.

Lemma foldl_increment_other c ks k :
  k ∉ ks → foldl increment c ks !! k = c !! k.
Proof.
  revert c. induction ks as [|k' ks IH]; intros c Hk; [done|].
  apply not_elem_of_cons in Hk as [Hne Hk]. simpl.
  rewrite IH by done. by apply increment_other.
Qed.

Lemma countPair_same g x c : countPair g x c x = c.
Proof. unfold countPair. by rewrite decide_False by (by intros []). Qed.

(** A pair never counts one of its own ends. *)
Lemma countPair_ends ns ls x y c k :
  k = Node.id x ∨ k = Node.id y →
  countPair (Some (graphOf ns ls)) x c y !! k = c !! k.
Proof.
  intros Hk. unfold countPair. destruct (decide _) as [Hne|]; [|done].
  apply foldl_increment_other. intros Hin.
  destruct (decide (findPath (Some (graphOf ns ls)) (Node.id x) (Node.id y) = []))
    as [He|Hp].
  - rewrite He, intermediates_nil in Hin. by apply elem_of_nil in Hin.
  - apply findPath_simple in Hp as [(Hh & Hl & _) Hnd].
    destruct (intermediates_inner _ _ _ _ Hnd Hh Hl Hin). naive_solver.
Qed.

Lemma initCentrality_lookup ns node :
  node ∈ ns → Node.id node ≠ "__proto__" →
  initCentrality ns !! Node.id node = Some (Num 0).
Proof.
  unfold initCentrality.
  induction ns as [|n ns IH] using rev_ind; intros Hin Hk.
  - by apply elem_of_nil in Hin.
  - rewrite foldl_snoc.
    destruct (decide (Node.id n = Node.id node)) as [->|Hne].
    + by apply assign_same.
    + rewrite assign_other by done. apply IH; [|done].
      apply elem_of_app in Hin as [|Hin]; [done|].
      apply list_elem_of_singleton in Hin. by subst.
Qed.

Lemma reduced_assign c k x :
  reduced c → (∀ q, x = Num q → Qred q = q) → reduced (assign c k x).
Proof.
  intros Hc Hx k' q. unfold assign. destruct (decide _); [apply Hc|].
  destruct (decide (k = k')) as [->|Hne].
  - rewrite lookup_insert_eq. intros [= ->]. by apply Hx.
  - rewrite lookup_insert_ne by done. apply Hc.
Qed.

Lemma reduced_increment c k : reduced c → reduced (increment c k).
Proof.
  intros Hc. apply reduced_assign; [done|]. intros q.
  destruct (c !! k) as [[q'| |b]|]; intros; simplify_eq.
  apply Qred_complete, Qred_correct.
Qed.

(** The centrality object never has a property ['__proto__']. *)
Lemma centralityCounts_proto g ns : centralityCounts g ns !! "__proto__" = None.
Proof.
  unfold centralityCounts, countPairs.
  assert (initCentrality ns !! "__proto__" = None) as Hinit.
  { unfold initCentrality. apply foldl_preserves; [|done].
    intros c node Hc. by apply assign_proto. }
  revert Hinit. generalize (initCentrality ns) as c. intros c Hc.
  apply foldl_preserves; [|done]. clear c Hc. intros c x Hc.
  apply foldl_preserves; [|done]. clear c Hc. intros c y Hc.
  unfold countPair. destruct (decide _); [|done].
  apply foldl_preserves; [|done]. intros c' k Hc'. by apply assign_proto.
Qed.

Lemma reduced_centralityCounts g ns : reduced (centralityCounts g ns).
Proof.
  unfold centralityCounts, countPairs.
  assert (reduced (initCentrality ns)) as Hinit.
  { unfold initCentrality. apply foldl_preserves.
    - intros c node Hc. apply reduced_assign; [done|]. by intros q [= <-].
    - intros k q Hq. by rewrite lookup_empty in Hq. }
  apply foldl_preserves; [|done]. intros c x Hc.
  apply foldl_preserves; [|done]. clear c Hc. intros c y Hc.
  unfold countPair. destruct (decide _); [|done].
  apply foldl_preserves; [|done]. intros. by apply reduced_increment.
Qed.

Lemma divide_one c : reduced c → divide 1 <$> c = c.
Proof.
  intros Hc. apply map_eq. intros k. rewrite lookup_fmap.
  destruct (c !! k) as [[q| |b]|] eqn:Hk; simpl; [|done..].
  do 2 f_equal. rewrite <- (Hc k q Hk) at 2.
  apply Qred_complete. field.
Qed.

End Counting.

(** C5: in the graph with nodes A, B, C and links A -> B, B -> C (whatever
    the remaining fields of the node and link records), [findPath] returns
    [A, B, C] for the pair (A, C); [calculateCentrality] gives B a strictly
    positive score and gives A and C the score 0. *)
Theorem chain_scenario (nameA nameB nameC catA catB catC : string)
    (sizeA sizeB sizeC valueAB valueBC : Z) (gapAB gapBC velAB velBC : option Q) :
  let g := Some (graphOf
                   [Node.mk "A" nameA catA sizeA; Node.mk "B" nameB catB sizeB;
                    Node.mk "C" nameC catC sizeC]
                   [Link.mk "A" "B" valueAB gapAB velAB;
                    Link.mk "B" "C" valueBC gapBC velBC]) in
  findPath g "A" "C" = ["A"; "B"; "C"] ∧
  (∃ score, calculateCentrality g !! "B" = Some (Num score) ∧ (0 < score)%Q) ∧
  calculateCentrality g !! "A" = Some (Num 0) ∧
  calculateCentrality g !! "C" = Some (Num 0).
Proof.
  intros g. split_and!.
  - vm_compute. reflexivity.
  - exists 1%Q. split; [vm_compute; reflexivity|done].
  - vm_compute. reflexivity.
  - vm_compute. reflexivity.
Qed.

(** Nor has the returned object. *)
Lemma calculateCentrality_proto g : calculateCentrality g !! "__proto__" = None.
Proof.
  unfold calculateCentrality.
  destruct g as [[[ns|] [ls|]]|]; try done.
  destruct (negb _); [|apply centralityCounts_proto].
  by rewrite lookup_fmap, centralityCounts_proto.
Qed.

Lemma calculateCentrality_undivided ns ls :
  (normalizer (Z.of_nat (length ns)) <= 0)%Q →
  calculateCentrality (Some (graphOf ns ls))
  = centralityCounts (Some (graphOf ns ls)) ns.
Proof.
  intros Hle. unfold calculateCentrality, graphOf.
  apply Qle_bool_iff in Hle. by rewrite Hle.
Qed.

Lemma calculateCentrality_small_counts ns ls :
  (length ns < 3)%nat →
  calculateCentrality (Some (graphOf ns ls))
  = centralityCounts (Some (graphOf ns ls)) ns.
Proof.
  intros Hlen.
  destruct ns as [|a [|b [|c rest]]]; simpl in Hlen; try lia.
  - unfold calculateCentrality, graphOf. simpl.
    unfold centralityCounts, countPairs, initCentrality. simpl.
    apply fmap_empty.
  - by apply calculateCentrality_undivided.
  - by apply calculateCentrality_undivided.
Qed.

(** The ids strictly inside a path are targets of links. *)
Lemma intermediates_targets ls s t p x :
  isPath ls s t p → x ∈ intermediates p → x ∈ linkTargets ls.
Proof.
  intros (_ & _ & Hc) Hx. unfold intermediates in Hx.
  apply elem_of_take in Hx as (i & Hi & _). rewrite lookup_drop in Hi.
  destruct (p !! i) as [y|] eqn:Hy.
  2:{ apply lookup_ge_None in Hy. apply lookup_lt_Some in Hi. lia. }
  destruct (Hc i y x Hy Hi) as (l & Hl & _ & <-).
  apply elem_of_list_to_set, list_elem_of_fmap. eauto.
Qed.

(** A pair whose two ends are the only ids links lead to counts nothing. *)
Lemma countPair_no_room ns ls s t c :
  (∀ x, x ∈ linkTargets ls → x = Node.id s ∨ x = Node.id t) →
  countPair (Some (graphOf ns ls)) s c t = c.
Proof.
  intros Hids. unfold countPair. destruct (decide _); [|done].
  set (p := findPath (Some (graphOf ns ls)) (Node.id s) (Node.id t)).
  destruct (decide (p = [])) as [->|Hp]; [done|].
  apply findPath_simple in Hp as [Hpath Hnd]. fold p in Hpath, Hnd.
  rewrite (elem_of_nil_inv (intermediates p)); [done|].
  intros x Hx.
  pose proof (intermediates_targets _ _ _ _ _ Hpath Hx) as Hxt.
  destruct Hpath as (Hh & Hl & Hc).
  destruct (intermediates_inner _ _ _ _ Hnd Hh Hl Hx) as [Hs Ht].
  by destruct (Hids x Hxt).
Qed.

(** When, besides, every link leads to a node of the graph, the result is
    exactly the initial object: each node at 0 and no other key. *)
Lemma centrality_small_exact ns ls :
  (length ns < 3)%nat →
  (∀ x, x ∈ linkTargets ls → ∃ node, node ∈ ns ∧ Node.id node = x) →
  calculateCentrality (Some (graphOf ns ls)) = initCentrality ns.
Proof.
  intros Hlen Hint. rewrite calculateCentrality_small_counts by done.
  unfold centralityCounts, countPairs.
  destruct ns as [|a [|b [|c rest]]]; simpl in Hlen; try lia; simpl.
  - done.
  - by rewrite countPair_same.
  - rewrite !countPair_same.
    rewrite (countPair_no_room _ _ a b), (countPair_no_room _ _ b a); [done|..];
      intros x Hx; destruct (Hint x Hx) as (node & Hin & <-);
      apply elem_of_cons in Hin as [->|Hin]; auto;
      apply list_elem_of_singleton in Hin as ->; auto.
Qed.

(** With fewer than three nodes no pair of nodes has a node between its
    ends: every node the object holds has the count 0. *)
Lemma centralityCounts_small ns ls node :
  (length ns < 3)%nat → node ∈ ns → Node.id node ≠ "__proto__" →
  centralityCounts (Some (graphOf ns ls)) ns !! Node.id node = Some (Num 0).
Proof.
  intros Hlen Hin Hk. unfold centralityCounts.
  destruct ns as [|a [|b [|c rest]]]; simpl in Hlen; try lia.
  - by apply elem_of_nil in Hin.
  - unfold countPairs. simpl. rewrite countPair_same.
    by apply initCentrality_lookup.
  - unfold countPairs. simpl. rewrite !countPair_same.
    assert (Node.id node = Node.id a ∨ Node.id node = Node.id b) as Hid.
    { apply elem_of_cons in Hin as [->|Hin]; [by left|].
      apply list_elem_of_singleton in Hin as ->. by right. }
    rewrite !countPair_ends by naive_solver.
    by apply initCentrality_lookup.
Qed.

(** X23: with fewer than three nodes every node whose id is not
    ['__proto__'] has the score 0, and nothing is divided by zero: for one
    or two nodes the normaliser is 0 and the counts are returned as they
    are, which is what dividing them by 1 would give, whereas dividing them
    by the normaliser would have turned every score into [NaN].  In general
    the counts are returned undivided whenever the normaliser is not
    positive. *)
Theorem centrality_small (ns : list Node.t) (ls : list Link.t) :
  let g := Some (graphOf ns ls) in
  let counts := centralityCounts g ns in
  let n := normalizer (Z.of_nat (length ns)) in
  ((length ns < 3)%nat →
     (∀ node, node ∈ ns → Node.id node ≠ "__proto__" →
              calculateCentrality g !! Node.id node = Some (Num 0)) ∧
     calculateCentrality g = counts ∧
     calculateCentrality g = divide 1 <$> counts ∧
     (ns ≠ [] →
        (n == 0)%Q ∧
        ∀ node, node ∈ ns → Node.id node ≠ "__proto__" →
                (divide n <$> counts) !! Node.id node = Some NaN)) ∧
  ((n <= 0)%Q → calculateCentrality g = counts).
Proof.
  intros g counts n. split; [|apply calculateCentrality_undivided]. intros Hlen.
  pose proof (calculateCentrality_small_counts ns ls Hlen) as Heq.
  fold g counts in Heq.
  split_and!; [|done| |].
  - intros node Hin Hk. rewrite Heq. by apply centralityCounts_small.
  - rewrite Heq. symmetry. apply divide_one, reduced_centralityCounts.
  - intros Hne.
    assert (n == 0)%Q as Hn.
    { unfold n. destruct ns as [|a [|b [|c rest]]]; simpl in Hlen; try lia; done. }
    split; [done|]. intros node Hin Hk.
    rewrite lookup_fmap. unfold counts, g.
    rewrite centralityCounts_small by done. simpl.
    apply Qeq_bool_iff in Hn. by rewrite Hn.
Qed.

Lemma centrality_small_witness :
  let ns := [nd "A"; nd "B"] in
  let ls := [lk "A" "B" 3; lk "B" "A" 1] in
  let g := Some (graphOf ns ls) in
  (length ns < 3)%nat ∧ (normalizer (Z.of_nat (length ns)) <= 0)%Q ∧ ns ≠ [] ∧
  nd "B" ∈ ns ∧ Node.id (nd "B") ≠ "__proto__" ∧
  calculateCentrality g !! "B" = Some (Num 0) ∧
  (divide (normalizer (Z.of_nat (length ns))) <$> centralityCounts g ns) !! "B"
  = Some NaN ∧
  calculateCentrality g = centralityCounts g ns.
Proof.
  intros ns ls g.
  assert (length ns < 3)%nat as Hlen by (simpl; lia).
  assert (normalizer (Z.of_nat (length ns)) <= 0)%Q as Hnorm by (vm_compute; discriminate).
  assert (ns ≠ []) as Hne by discriminate.
  assert (nd "B" ∈ ns) as Hin by (right; left).
  assert (Node.id (nd "B") ≠ "__proto__") as Hk by discriminate.
  destruct (centrality_small ns ls) as [Hsmall Hundiv].
  destruct (Hsmall Hlen) as (Hzero & _ & _ & Hdiv).
  destruct (Hdiv Hne) as [_ Hnan].
  split; [exact Hlen|]. split; [exact Hnorm|]. split; [exact Hne|].
  split; [exact Hin|]. split; [exact Hk|].
  split; [exact (Hzero _ Hin Hk)|]. split; [exact (Hnan _ Hin Hk)|exact (Hundiv Hnorm)].
Defined.


(** C1 (the code departs from it): the graph [hubABC] has three nodes with
    distinct ids, every link joins two of them, and B lies strictly between
    A and C on the paths of both ordered pairs (A, C) and (C, A).  Its
    count 2 is divided by the normaliser (3-1)(3-2)/2 = 1, so the score of
    B is 2, outside [0,1]. *)
Theorem centrality_hub_exceeds_one :
  nodes hubABC = Some [nd "A"; nd "B"; nd "C"] ∧
  findPath (Some hubABC) "A" "C" = ["A"; "B"; "C"] ∧
  findPath (Some hubABC) "C" "A" = ["C"; "B"; "A"] ∧
  (normalizer 3 == 1)%Q ∧
  calculateCentrality (Some hubABC) !! "B" = Some (Num 2) ∧
  ¬ (2 <= 1)%Q.
Proof.
  split_and!; try (vm_compute; reflexivity).
  intros H. apply Qle_bool_iff in H. vm_compute in H. discriminate.
Qed.

(** ** How far the scores can go

    Each ordered pair of nodes counts a node at most once, and only when
    the node is neither of its ends; so a count is at most (n-1)(n-2),
    twice the normaliser. *)

Section Bound.
Variable ns : list Node.t.
Variable ls : list Link.t.
Variable k : string.
Hypothesis k_own : k ≠ "__proto__".

Let g := Some (graphOf ns ls).

Lemma increment_holds c z k' :
  holds k c z → holds k (increment c k') (if decide (k' = k) then z + 1 else z).
Proof.
  intros (q & Hq & Hz). unfold holds, increment.
  destruct (decide (k' = k)) as [->|Hne].
  - rewrite assign_same, Hq by done. eexists. split; [done|].
    rewrite Qred_correct, inject_Z_plus, Hz. reflexivity.
  - rewrite assign_other by done. eauto.
Qed.

Lemma foldl_increment_holds ks c z :
  NoDup ks → holds k c z →
  ∃ z', holds k (foldl increment c ks) z' ∧
        (z ≤ z' ≤ z + (if decide (k ∈ ks) then 1 else 0))%Z.
Proof.
  revert c z. induction ks as [|k' ks IH]; intros c z Hnd Hc; simpl.
  - exists z. split; [done|lia].
  - apply NoDup_cons in Hnd as [Hk' Hnd].
    apply (increment_holds _ _ k') in Hc.
    destruct (IH _ _ Hnd Hc) as (z' & Hz' & Hle).
    exists z'. split; [done|].
    destruct (decide (k' = k)) as [->|Hne].
    + rewrite decide_False in Hle by done.
      rewrite decide_True by (by left). lia.
    + destruct (decide (k ∈ ks)).
      * rewrite decide_True by (by right). lia.
      * rewrite decide_False; [lia|].
        intros [?|?]%elem_of_cons; by simplify_eq.
Qed.

Lemma countPair_holds s t c z :
  holds k c z →
  ∃ z', holds k (countPair g s c t) z' ∧
        (z ≤ z' ≤ z + (if decide (canCount k s t) then 1 else 0))%Z.
Proof.
  intros Hc. unfold countPair.
  destruct (decide (Node.id s ≠ Node.id t)) as [Hst|Hst].
  2:{ exists z. split; [done|]. destruct (decide _); lia. }
  set (p := findPath g (Node.id s) (Node.id t)).
  destruct (decide (p = [])) as [He|Hp].
  { rewrite He. exists z. split; [done|]. destruct (decide _); lia. }
  apply findPath_simple in Hp as [(Hh & Hl & _) Hnd]. fold g p in Hh, Hl, Hnd.
  assert (NoDup (intermediates p)) as Hmid.
  { unfold intermediates. apply (sublist_NoDup _ p Hnd).
    etrans; [apply sublist_take|apply sublist_drop]. }
  destruct (foldl_increment_holds _ _ _ Hmid Hc) as (z' & Hz' & Hle).
  exists z'. split; [done|].
  destruct (decide (k ∈ intermediates p)) as [Hin|]; [|destruct (decide _); lia].
  destruct (intermediates_inner _ _ _ _ Hnd Hh Hl Hin).
  rewrite decide_True; [lia|]. by split_and!.
Qed.

Lemma countRow_holds s ts c z :
  holds k c z →
  ∃ z', holds k (foldl (countPair g s) c ts) z' ∧
        (z ≤ z' ≤ z + Z.of_nat (length (filter (canCount k s) ts)))%Z.
Proof.
  revert c z. induction ts as [|t ts IH]; intros c z Hc; simpl.
  - exists z. split; [done|lia].
  - destruct (countPair_holds s t c z Hc) as (z1 & Hz1 & Hle1).
    destruct (IH _ _ Hz1) as (z' & Hz' & Hle).
    exists z'. split; [done|]. rewrite filter_cons.
    destruct (decide (canCount k s t)); simpl in *; lia.
Qed.

Lemma countPairs_holds outer c z :
  holds k c z →
  ∃ z', holds k (foldl (λ c source, foldl (countPair g source) c ns) c outer) z' ∧
        (z ≤ z' ≤ z + Z.of_nat
                        (sum_list ((λ s, length (filter (canCount k s) ns)) <$> outer)))%Z.
Proof.
  revert c z. induction outer as [|s outer IH]; intros c z Hc; simpl.
  - exists z. split; [done|lia].
  - destruct (countRow_holds s ns c z Hc) as (z1 & Hz1 & Hle1).
    destruct (IH _ _ Hz1) as (z' & Hz' & Hle).
    exists z'. split; [done|].
    change (list_fmap Node.t nat ?f outer) with (f <$> outer).
    rewrite Nat2Z.inj_add.
    set (rest := sum_list _) in *. lia.
Qed.

Lemma length_filter_two {A} (P : A → Prop) `{!∀ x, Decision (P x)} (l : list A) x y :
  x ∈ l → y ∈ l → x ≠ y → ¬ P x → ¬ P y →
  (length (filter P l) + 2 ≤ length l)%nat.
Proof.
  intros Hx Hy Hne HPx HPy.
  induction l as [|a l IH]; [by apply elem_of_nil in Hx|].
  rewrite filter_cons. simpl.
  apply elem_of_cons in Hx as [<-|Hx]; apply elem_of_cons in Hy as [<-|Hy];
    try done.
  - rewrite decide_False by done.
    pose proof (length_filter_lt P l y Hy HPy). lia.
  - rewrite decide_False by done.
    pose proof (length_filter_lt P l x Hx HPx). lia.
  - specialize (IH Hx Hy). destruct (decide (P a)); simpl; lia.
Qed.

Lemma sum_list_bounded {A} (f : A → nat) (Q : A → Prop) `{!∀ x, Decision (Q x)}
    (m : nat) (l : list A) :
  (∀ x, x ∈ l → (f x ≤ if decide (Q x) then m else 0)%nat) →
  (sum_list (f <$> l) ≤ m * length (filter Q l))%nat.
Proof.
  induction l as [|a l IH]; intros Hf; simpl; [lia|].
  rewrite filter_cons.
  pose proof (Hf a ltac:(by left)) as Ha.
  assert (sum_list (f <$> l) ≤ m * length (filter Q l))%nat as Hl
    by (apply IH; intros x Hx; apply Hf; by right).
  change (list_fmap A nat f l) with (f <$> l).
  destruct (decide (Q a)); simpl; rewrite ?Nat.mul_succ_r; lia.
Qed.

(** Pairs able to count the id of a node of the graph. *)
Lemma canCount_total v :
  v ∈ ns → k = Node.id v →
  (sum_list ((λ s, length (filter (canCount k s) ns)) <$> ns) + 3 * length ns
   ≤ length ns * length ns + 2)%nat.
Proof.
  intros Hv Hk.
  assert (sum_list ((λ s, length (filter (canCount k s) ns)) <$> ns)
          ≤ (length ns - 2) * length (filter (λ s, k ≠ Node.id s) ns))%nat as Hsum.
  { apply sum_list_bounded. intros s Hs.
    destruct (decide (k ≠ Node.id s)) as [Hks|Hks].
    - assert (length (filter (canCount k s) ns) + 2 ≤ length ns)%nat; [|lia].
      apply length_filter_two with s v; [done..| | |].
      + intros ->. by subst.
      + unfold canCount. naive_solver.
      + unfold canCount. naive_solver.
    - assert (∀ l, filter (canCount k s) l = []) as ->; [|done].
      induction l as [|t l IH]; [done|].
      rewrite filter_cons_False; [done|]. unfold canCount. naive_solver. }
  pose proof (length_filter_lt (λ s, k ≠ Node.id s) ns v Hv) as Hlt.
  assert (length (filter (λ s, k ≠ Node.id s) ns) ≤ length ns - 1)%nat as Hrest
    by (specialize (Hlt ltac:(naive_solver)); lia).
  assert (1 ≤ length ns)%nat by (destruct ns; [by apply elem_of_nil in Hv|simpl; lia]).
  nia.
Qed.

End Bound.

(** A quotient by a positive number is an ordinary quotient. *)
Lemma divide_positive (d q : Q) :
  (0 < d)%Q → divide d (Num q) = Num (Qred (q / d)).
Proof.
  intros Hd. unfold divide.
  destruct (Qeq_bool d 0) eqn:Hz; [|done].
  apply Qeq_bool_iff in Hz. rewrite Hz in Hd. by apply Qlt_irrefl in Hd.
Qed.

Lemma normalizer_positive (n : Z) : (3 ≤ n)%Z → (0 < normalizer n)%Q.
Proof.
  intros Hn. unfold normalizer.
  apply Qlt_shift_div_l; [done|]. rewrite Qmult_0_l.
  rewrite <- (Zlt_Qlt 0). nia.
Qed.

(** X21: in a graph of at least three nodes, the score of every node whose
    id is not ['__proto__'] is a number between 0 and 2. *)
Theorem centrality_at_most_two (ns : list Node.t) (ls : list Link.t) (node : Node.t) :
  (3 ≤ length ns)%nat → node ∈ ns → Node.id node ≠ "__proto__" →
  ∃ q, calculateCentrality (Some (graphOf ns ls)) !! Node.id node = Some (Num q) ∧
       (0 <= q <= 2)%Q.
Proof.
  intros Hn Hin Hown. set (n := Z.of_nat (length ns)).
  assert (holds (Node.id node) (initCentrality ns) 0) as Hinit.
  { exists 0%Q. split; [by apply initCentrality_lookup|reflexivity]. }
  destruct (countPairs_holds ns ls (Node.id node) Hown ns _ _ Hinit)
    as (z & (q & Hq & Hz) & Hle).
  pose proof (canCount_total ns ls (Node.id node) Hown node Hin eq_refl) as Htotal.
  assert (0 ≤ z ≤ (n - 1) * (n - 2))%Z as Hbound by (unfold n; nia).
  pose proof (normalizer_positive n ltac:(unfold n; lia)) as Hpos.
  unfold calculateCentrality, graphOf. fold n.
  assert (Qle_bool (normalizer n) 0 = false) as ->.
  { apply not_true_is_false. rewrite Qle_bool_iff. by apply Qlt_not_le. }
  simpl. rewrite lookup_fmap.
  unfold centralityCounts, countPairs, graphOf in *. rewrite Hq.
  cbn [fmap option_fmap option_map]. rewrite divide_positive by done.
  eexists. split; [reflexivity|]. rewrite Qred_correct, Hz. split.
  - apply Qle_shift_div_l; [done|]. rewrite Qmult_0_l.
    rewrite <- (Zle_Qle 0). lia.
  - apply Qle_shift_div_r; [done|].
    assert (2 * normalizer n == inject_Z ((n - 1) * (n - 2)))%Q as ->
      by (unfold normalizer; field).
    rewrite <- Zle_Qle. lia.
Qed.

(** ** calculateCommunityStats *)

Section CommunityStats.

Lemma totalValue_sum ls : totalValue ls = sumOfValues ls.
Proof.
  unfold totalValue.
  assert (∀ acc, foldl (λ sum link, sum + Link.value link) acc ls
                 = acc + sumOfValues ls) as H.
  { induction ls as [|l ls IH]; intros acc; simpl; [lia|]. rewrite IH. lia. }
  by rewrite H.
Qed.

Lemma elem_of_insertByValue x y sorted :
  y ∈ insertByValue x sorted ↔ y = x ∨ y ∈ sorted.
Proof.
  induction sorted as [|z sorted IH]; simpl.
  - rewrite list_elem_of_singleton, elem_of_nil. naive_solver.
  - case_bool_decide.
    + by rewrite elem_of_cons.
    + rewrite !elem_of_cons, IH. naive_solver.
Qed.

Lemma elem_of_sortByValueDesc ls y : y ∈ sortByValueDesc ls ↔ y ∈ ls.
Proof.
  unfold sortByValueDesc. induction ls as [|x ls IH]; simpl; [done|].
  by rewrite elem_of_insertByValue, elem_of_cons, IH.
Qed.

Lemma insertByValue_sorted x sorted :
  StronglySorted byValueDesc sorted →
  StronglySorted byValueDesc (insertByValue x sorted).
Proof.
  induction 1 as [|z sorted Hs IH Hall]; simpl.
  - repeat constructor.
  - case_bool_decide as Hle.
    + constructor; [by constructor|].
      constructor; [done|].
      eapply Forall_impl; [exact Hall|]. unfold byValueDesc. intros; simpl in *; lia.
    + constructor; [done|].
      apply Forall_forall. intros y Hy.
      apply elem_of_insertByValue in Hy as [->|Hy].
      * unfold byValueDesc. lia.
      * by eapply Forall_forall in Hall.
Qed.

Lemma sortByValueDesc_sorted ls : StronglySorted byValueDesc (sortByValueDesc ls).
Proof.
  unfold sortByValueDesc. induction ls as [|x ls IH]; simpl.
  - constructor.
  - by apply insertByValue_sorted.
Qed.

Lemma length_sortByValueDesc ls : length (sortByValueDesc ls) = length ls.
Proof.
  assert (∀ x l, length (insertByValue x l) = S (length l)) as Hins.
  { intros x l. induction l as [|y l IH]; simpl; [done|].
    case_bool_decide; simpl; [done|]. by rewrite IH. }
  unfold sortByValueDesc. induction ls as [|x ls IH]; simpl; [done|].
  by rewrite Hins, IH.
Qed.

(** The [top] list of one direction. *)
Lemma top_direction ls :
  (length (top (direction ls)) ≤ 5)%nat ∧
  StronglySorted byValueDesc (top (direction ls)) ∧
  ∀ link, link ∈ top (direction ls) → link ∈ ls.
Proof.
  simpl. split_and!.
  - rewrite length_take. lia.
  - pose proof (sortByValueDesc_sorted ls) as Hs.
    rewrite <- (take_drop 5 (sortByValueDesc ls)) in Hs.
    by apply StronglySorted_app_1_l in Hs.
  - intros link Hin. apply elem_of_sortByValueDesc.
    apply elem_of_take in Hin as (i & Hi & _).
    by eapply list_elem_of_lookup_2.
Qed.

End CommunityStats.

(** C9: for a graph with a [links] array and a non-empty community id [c],
    [calculateCommunityStats] returns a record whose [netFlow] is the sum of
    [value] over the links with target [c] minus the sum over the links with
    source [c], and whose [incoming.top] and [outgoing.top] hold at most 5
    of those links each, in descending order of [value]; for a null graph
    or a null/empty id it returns null. *)
Theorem calculateCommunityStats_spec (g : Graph) (ls : list Link.t) (c : string) :
  (links g = Some ls → c ≠ "" →
   ∃ stats,
     calculateCommunityStats (Some g) (Some c) = Normal (Some stats) ∧
     netFlow stats =
       sumOfValues (filter (λ link, Link.target link = c) ls)
       - sumOfValues (filter (λ link, Link.source link = c) ls) ∧
     (length (top (incoming stats)) ≤ 5)%nat ∧
     (length (top (outgoing stats)) ≤ 5)%nat ∧
     StronglySorted byValueDesc (top (incoming stats)) ∧
     StronglySorted byValueDesc (top (outgoing stats)) ∧
     (∀ link, link ∈ top (incoming stats) → link ∈ ls ∧ Link.target link = c) ∧
     (∀ link, link ∈ top (outgoing stats) → link ∈ ls ∧ Link.source link = c)) ∧
  calculateCommunityStats None (Some c) = Normal None ∧
  calculateCommunityStats (Some g) None = Normal None ∧
  calculateCommunityStats (Some g) (Some "") = Normal None.
Proof.
  split_and!; [|done..].
  intros Hls Hc. unfold calculateCommunityStats. rewrite Hls.
  rewrite decide_False by done.
  eexists. split; [reflexivity|].
  cbn [netFlow incoming outgoing].
  destruct (top_direction (filter (λ link, Link.target link = c) ls))
    as (Hin5 & Hins & Hinsub).
  destruct (top_direction (filter (λ link, Link.source link = c) ls))
    as (Hout5 & Houts & Houtsub).
  split_and!; [by rewrite !totalValue_sum|done..| |].
  - intros link Hl. apply Hinsub, list_elem_of_filter in Hl. naive_solver.
  - intros link Hl. apply Houtsub, list_elem_of_filter in Hl. naive_solver.
Qed.

Lemma calculateCommunityStats_spec_witness :
  let ls := [lk "A" "B" 4; lk "C" "B" 9; lk "B" "A" 2] in
  links (graphOf [] ls) = Some ls ∧ "B" ≠ "" ∧
  ∃ stats,
    calculateCommunityStats (Some (graphOf [] ls)) (Some "B") = Normal (Some stats) ∧
    netFlow stats =
      sumOfValues (filter (λ link, Link.target link = "B") ls)
      - sumOfValues (filter (λ link, Link.source link = "B") ls).
Proof.
  intros ls.
  assert (links (graphOf [] ls) = Some ls) as Hls by reflexivity.
  assert ("B" ≠ "") as Hc by discriminate.
  destruct (calculateCommunityStats_spec (graphOf [] ls) ls "B") as [Hspec _].
  destruct (Hspec Hls Hc) as (stats & Hrun & Hnet & _).
  split; [exact Hls|]. split; [exact Hc|]. exists stats. split; [exact Hrun|exact Hnet].
Defined.

(** ** filterByMinFlow *)

Section MinFlow.

Lemma elem_of_connectedNodeIds ls x :
  x ∈ connectedNodeIds ls ↔
  ∃ link, link ∈ ls ∧ (Link.source link = x ∨ Link.target link = x).
Proof.
  unfold connectedNodeIds.
  induction ls as [|l ls IH] using rev_ind.
  - simpl. split; [set_solver|]. intros (link & Hin & _). by apply elem_of_nil in Hin.
  - rewrite foldl_snoc, !elem_of_union, IH, !elem_of_singleton.
    setoid_rewrite elem_of_app. setoid_rewrite list_elem_of_singleton.
    naive_solver.
Qed.

End MinFlow.

(** C10: for a data object holding a graph and [minFlow > 0],
    [filterByMinFlow] returns the data with a graph whose links are exactly
    the links of value at least [minFlow] and whose nodes are exactly the
    nodes touched by a retained link (so nodes without a retained link,
    isolated ones included, are dropped); for [minFlow <= 0], a missing
    graph or missing data, the input is returned as it is. *)
Theorem filterByMinFlow_spec (d : Data) (ns : list Node.t) (ls : list Link.t)
    (minFlow : Z) :
  (graph d = Some (graphOf ns ls) → 0 < minFlow →
   ∃ ns' ls',
     filterByMinFlow (Some d) minFlow =
       Normal (Some {| graph := Some (graphOf ns' ls');
                       metadata := metadata d;
                       bridge_communities := bridge_communities d;
                       summary_stats := summary_stats d |}) ∧
     (∀ link, link ∈ ls' ↔ link ∈ ls ∧ (minFlow ≤ Link.value link)%Z) ∧
     (∀ node, node ∈ ns' ↔
              node ∈ ns ∧ ∃ link, link ∈ ls' ∧ touches link node)) ∧
  ((minFlow ≤ 0)%Z → filterByMinFlow (Some d) minFlow = Normal (Some d)) ∧
  (graph d = None → filterByMinFlow (Some d) minFlow = Normal (Some d)) ∧
  filterByMinFlow None minFlow = Normal None.
Proof.
  split_and!; [| | |done].
  - intros Hg Hpos. unfold filterByMinFlow. rewrite Hg.
    rewrite bool_decide_eq_false_2 by lia. simpl.
    eexists _, _. split; [reflexivity|]. split.
    + intros link. rewrite list_elem_of_filter. unfold keepLink.
      rewrite bool_decide_eq_true. naive_solver.
    + intros node. rewrite list_elem_of_filter, elem_of_connectedNodeIds.
      unfold touches. naive_solver.
  - intros Hle. unfold filterByMinFlow.
    destruct (graph d); [|done]. by rewrite bool_decide_eq_true_2.
  - intros Hg. unfold filterByMinFlow. by rewrite Hg.
Qed.

Lemma filterByMinFlow_spec_witness :
  let ns := [nd "A"; nd "B"; nd "C"; nd "D"] in
  let ls := [lk "A" "B" 7; lk "B" "C" 2] in
  let d := {| graph := Some (graphOf ns ls); metadata := JObj [];
              bridge_communities := JArr []; summary_stats := JObj [] |} in
  let d0 := {| graph := None; metadata := JObj [];
               bridge_communities := JArr []; summary_stats := JObj [] |} in
  graph d = Some (graphOf ns ls) ∧ 0 < 5 ∧ (0 ≤ 0)%Z ∧ graph d0 = None ∧
  (∃ ns' ls',
     filterByMinFlow (Some d) 5 =
       Normal (Some {| graph := Some (graphOf ns' ls'); metadata := JObj [];
                       bridge_communities := JArr []; summary_stats := JObj [] |}) ∧
     (∀ link, link ∈ ls' ↔ link ∈ ls ∧ (5 ≤ Link.value link)%Z) ∧
     (∀ node, node ∈ ns' ↔ node ∈ ns ∧ ∃ link, link ∈ ls' ∧ touches link node)) ∧
  filterByMinFlow (Some d) 0 = Normal (Some d) ∧
  filterByMinFlow (Some d0) 5 = Normal (Some d0).
Proof.
  intros ns ls d d0.
  assert (graph d = Some (graphOf ns ls)) as Hg by reflexivity.
  assert (0 < 5) as Hpos by lia.
  assert (0 ≤ 0)%Z as Hle by lia.
  assert (graph d0 = None) as Hnone by reflexivity.
  destruct (filterByMinFlow_spec d ns ls 5) as (Hfilter & _).
  destruct (filterByMinFlow_spec d ns ls 0) as (_ & Hzero & _).
  destruct (filterByMinFlow_spec d0 ns ls 5) as (_ & _ & Hmissing & _).
  split; [exact Hg|]. split; [exact Hpos|]. split; [exact Hle|].
  split; [exact Hnone|].
  split; [exact (Hfilter Hg Hpos)|]. split; [exact (Hzero Hle)|exact (Hmissing Hnone)].
Defined.

Example sortByValueDesc_stable :
  sortByValueDesc [lk "A" "X" 3; lk "B" "X" 7; lk "C" "X" 3; lk "D" "X" 7]
  = [lk "B" "X" 7; lk "D" "X" 7; lk "A" "X" 3; lk "C" "X" 3].
Proof. vm_compute. reflexivity. Qed.

Example filterByMinFlow_drops_unconnected :
  filterByMinFlow
    (Some {| graph := Some (graphOf [nd "A"; nd "B"; nd "C"; nd "D"]
                              [lk "A" "B" 7; lk "B" "C" 2]);
             metadata := JObj []; bridge_communities := JArr [];
             summary_stats := JObj [] |}) 5
  = Normal (Some {| graph := Some (graphOf [nd "A"; nd "B"] [lk "A" "B" 7]);
                    metadata := JObj []; bridge_communities := JArr [];
                    summary_stats := JObj [] |}).
Proof. vm_compute. reflexivity. Qed.

(** ** loadMigrationData *)

(** C2 (does not hold): when the request fails nothing usable was loaded,
    yet the returned promise resolves with the empty document; no error
    reaches the caller. *)
Lemma loadMigrationData_swallows_failure :
  let env := NetworkFailure "TypeError: Failed to fetch" in
  noUsableRecords env ∧
  fst (loadMigrationData env) = Normal emptyData ∧
  ¬ (noUsableRecords env → ∃ error, fst (loadMigrationData env) = Throw error).
Proof.
  simpl. split_and!; [done..|].
  intros H. destruct H as [error Herr]; [done|discriminate].
Qed.

(** C2 as amended: [loadMigrationData] never rejects.  A response that is
    [ok] and parses to a document with a graph holding both arrays is
    returned as it is, also when those arrays are empty, and nothing is
    logged; in every other case the error is passed to [console.error] and
    the empty document is returned as an ordinary value. *)
Theorem loadMigrationData_never_rejects (env : FetchOutcome) :
  (∃ data, fst (loadMigrationData env) = Normal data) ∧
  (∀ data ns ls,
     env = Response true (inr data) → graph data = Some (graphOf ns ls) →
     loadMigrationData env = (Normal data, [])) ∧
  ((¬ ∃ data ns ls, env = Response true (inr data) ∧ graph data = Some (graphOf ns ls)) →
   ∃ error, loadMigrationData env = (Normal emptyData, [error])).
Proof.
  unfold loadMigrationData. split_and!.
  - destruct (tryLoad env); eauto.
  - intros data ns ls -> Hg. simpl. by rewrite Hg.
  - intros Hno. destruct env as [e|[|] [e|data]]; simpl; eauto.
    destruct (graph data) as [[[ns|] [ls|]]|] eqn:Hg; eauto.
    destruct Hno. by exists data, ns, ls.
Qed.

Lemma loadMigrationData_never_rejects_witness :
  loadMigrationData (Response true (inr emptyData)) = (Normal emptyData, []) ∧
  ∃ error, loadMigrationData (Response false (inr emptyData)) = (Normal emptyData, [error]).
Proof.
  split.
  - destruct (loadMigrationData_never_rejects (Response true (inr emptyData)))
      as (_ & Hok & _).
    exact (Hok emptyData [] [] eq_refl eq_refl).
  - destruct (loadMigrationData_never_rejects (Response false (inr emptyData)))
      as (_ & _ & Hfail).
    apply Hfail. intros (data & ns & ls & Henv & _). discriminate Henv.
Defined.

(** ** The store transformers compute the same results and keep the graph *)

Section Runs.

Lemma forEach_fold {A B} (proj : Store → B) (f : B → A → B) (Inv : Store → Prop)
    (body : A → Run unit) (l : list A) :
  (∀ x σ, Inv σ → Inv (body x σ).2 ∧ proj (body x σ).2 = f (proj σ) x) →
  ∀ σ, Inv σ →
    Inv (forEach l body σ).2 ∧ proj (forEach l body σ).2 = foldl f (proj σ) l.
Proof.
  intros Hbody. induction l as [|x l IH]; intros σ Hσ; [done|].
  simpl. unfold mbind, run_bind.
  destruct (Hbody x σ Hσ) as [Hinv Hproj].
  destruct (body x σ) as [[] σ1]. simpl in *.
  destruct (IH σ1 Hinv) as [Hinv' Hproj']. by rewrite Hproj', Hproj.
Qed.

Lemma searchLoop_spec fuel targetId σ :
  (searchLoop fuel targetId σ).1 = bfs fuel (adjacencyMap σ) targetId (searchState σ) ∧
  sameOutside σ (searchLoop fuel targetId σ).2.
Proof.
  revert σ. induction fuel as [|fuel IH]; intros σ; [done|].
  simpl. unfold mbind, run_bind, readSearch. simpl.
  destruct (queue (searchState σ)) as [|path rest] eqn:HQ; [done|].
  simpl. destruct (last path) as [current|].
  - destruct (decide (current = targetId)); [done|].
    unfold readAdjacency. simpl.
    set (σ1 := {| graphObject := graphObject σ; adjacencyMap := adjacencyMap σ;
                  searchState := {| queue := rest; visited := visited (searchState σ) |};
                  centralityObject := centralityObject σ |}).
    destruct (forEach_fold searchState (visit path)
                (λ σ', sameOutside σ σ' ∧ adjacencyMap σ' = adjacencyMap σ)
                (λ neighbor, st ← readSearch; writeSearch (visit path st neighbor))
                (neighborsOf (adjacencyMap σ) current)) with (σ := σ1)
      as [[Hsame Hadj] Hsearch]; [by intros x σ' [[? ?] ?]|done|].
    destruct (forEach _ _ σ1) as [[] σ2]. simpl in *.
    destruct (IH σ2) as [Hres [Hg Hc]].
    rewrite Hres, Hadj, Hsearch. split; [done|].
    destruct Hsame as [Hg' Hc']. split; congruence.
  - set (σ1 := {| graphObject := graphObject σ; adjacencyMap := adjacencyMap σ;
                  searchState := {| queue := rest; visited := visited (searchState σ) |};
                  centralityObject := centralityObject σ |}).
    destruct (IH σ1) as [Hres Hsame]. by rewrite Hres.
Qed.

#[local] Arguments searchLoop : simpl never.
#[local] Arguments findPathRun : simpl never.

Lemma findPathRun_spec sourceId targetId σ :
  (findPathRun sourceId targetId σ).1 = findPath (graphObject σ) sourceId targetId ∧
  sameOutside σ (findPathRun sourceId targetId σ).2.
Proof.
  unfold findPathRun, mbind, run_bind, readGraph, findPath.
  destruct (graphObject σ) as [[[ns|] [ls|]]|] eqn:Hg; try done.
  simpl.
  set (σ1 := {| graphObject := graphObject σ; adjacencyMap := ∅;
                searchState := searchState σ;
                centralityObject := centralityObject σ |}).
  destruct (forEach_fold adjacencyMap addLink (λ σ', sameOutside σ σ')
              (λ link, a ← readAdjacency; writeAdjacency (addLink a link)) ls)
    with (σ := σ1) as [[Hg1 Hc1] Hadj]; [by intros x σ' [? ?]|done|].
  destruct (forEach _ _ σ1) as [[] σ2]. simpl in *.
  set (σ3 := {| graphObject := graphObject σ2; adjacencyMap := adjacencyMap σ2;
                searchState := {| queue := [[sourceId]]; visited := {[sourceId]} |};
                centralityObject := centralityObject σ2 |}).
  destruct (searchLoop_spec (searchFuel ls) targetId σ3) as [Hres [Hg3 Hc3]].
  destruct (searchLoop _ _ σ3) as [result σ4]. simpl in *.
  subst result. rewrite Hadj. split; [done|]. split; congruence.
Qed.

Lemma calculateCentralityRun_spec σ :
  (calculateCentralityRun σ).1 = calculateCentrality (graphObject σ) ∧
  graphObject (calculateCentralityRun σ).2 = graphObject σ.
Proof.
  unfold calculateCentralityRun, mbind, run_bind, readGraph, calculateCentrality.
  destruct (graphObject σ) as [[[ns|] [ls|]]|] eqn:Hg; try done.
  simpl.
  set (g := Some {| nodes := Some ns; links := Some ls |}) in *.
  set (σ1 := {| graphObject := graphObject σ; adjacencyMap := adjacencyMap σ;
                searchState := searchState σ; centralityObject := ∅ |}).
  destruct (forEach_fold centralityObject (λ c node, assign c (Node.id node) (Num 0))
              (λ σ', graphObject σ' = g)
              (λ node, c ← readCentrality;
                       writeCentrality (assign c (Node.id node) (Num 0)))
              ns) with (σ := σ1) as [Hg2 Hinit]; [done|done|].
  destruct (forEach _ _ σ1) as [[] σ2]. simpl in Hg2, Hinit.
  destruct (forEach_fold centralityObject
              (λ c source, foldl (countPair g source) c ns)
              (λ σ', graphObject σ' = g)
              (λ source,
                 forEach ns (λ target,
                   if decide (Node.id source ≠ Node.id target) then
                     path ← findPathRun (Node.id source) (Node.id target);
                     forEach (intermediates path) (λ k,
                       c ← readCentrality; writeCentrality (increment c k))
                   else mret tt))
              ns) with (σ := σ2) as [Hg3 Hcount]; [|done|].
  { intros source σa Ha.
    apply (forEach_fold centralityObject (countPair g source)
             (λ σ', graphObject σ' = g)); [|done].
    intros target σb Hb. unfold countPair.
    destruct (decide (Node.id source ≠ Node.id target)); [|done].
    unfold mbind, run_bind.
    destruct (findPathRun_spec (Node.id source) (Node.id target) σb)
      as [Hres [Hgb Hcb]].
    destruct (findPathRun _ _ σb) as [path σc]. simpl in *.
    rewrite Hb in Hres. subst path. rewrite <- Hcb.
    apply (forEach_fold centralityObject increment (λ σ', graphObject σ' = g));
      [done|congruence]. }
  destruct (forEach _ _ σ2) as [[] σ3]. simpl in Hg3, Hcount.
  unfold centralityCounts, countPairs, initCentrality.
  rewrite <- Hinit, <- Hcount.
  destruct (negb _); simpl; split; congruence.
Qed.

End Runs.

(** C7: two evaluations of [findPath(g, s, t)], or of
    [calculateCentrality(g)], on the same graph give the same result,
    whatever earlier calls left in the rest of the store: the result is
    the value of the pure function at the graph, and nothing else is read. *)
Theorem analytics_deterministic (σ1 σ2 : Store) (s t : string) :
  graphObject σ1 = graphObject σ2 →
  (findPathRun s t σ1).1 = (findPathRun s t σ2).1 ∧
  (calculateCentralityRun σ1).1 = (calculateCentralityRun σ2).1.
Proof.
  intros Hg.
  destruct (findPathRun_spec s t σ1) as [-> _].
  destruct (findPathRun_spec s t σ2) as [-> _].
  destruct (calculateCentralityRun_spec σ1) as [-> _].
  destruct (calculateCentralityRun_spec σ2) as [-> _].
  by rewrite Hg.
Qed.

Lemma analytics_deterministic_witness :
  let σ1 := freshStore (Some hubABC) in
  let σ2 := (calculateCentralityRun σ1).2 in
  graphObject σ1 = graphObject σ2 ∧
  (findPathRun "A" "C" σ1).1 = (findPathRun "A" "C" σ2).1 ∧
  (calculateCentralityRun σ1).1 = (calculateCentralityRun σ2).1.
Proof.
  intros σ1 σ2.
  assert (graphObject σ1 = graphObject σ2) as Hg by (vm_compute; reflexivity).
  split; [exact Hg|]. exact (analytics_deterministic σ1 σ2 "A" "C" Hg).
Defined.

(** C8: [findPath] and [calculateCentrality] leave the graph object - its
    [nodes] and [links] arrays and every record in them - as it was before
    the call; what they build (adjacency map, queue, visited set, paths,
    centrality object) lives outside of it. *)
Theorem analytics_leave_graph_unchanged (s t : string) :
  preservesGraph (findPathRun s t) ∧
  preservesGraph calculateCentralityRun ∧
  (∀ σ, (findPathRun s t σ).1 = findPath (graphObject σ) s t) ∧
  (∀ σ, (calculateCentralityRun σ).1 = calculateCentrality (graphObject σ)).
Proof.
  split_and!; intros σ.
  - by destruct (findPathRun_spec s t σ) as [_ [? _]].
  - by destruct (calculateCentralityRun_spec σ) as [_ ?].
  - by destruct (findPathRun_spec s t σ) as [? _].
  - by destruct (calculateCentralityRun_spec σ) as [? _].
Qed.


(** * Further properties of the utilities *)

(** ** The two filters *)

Lemma filterByCategory_run d ns ls category :
  graph d = Some (graphOf ns ls) → category ≠ "all" →
  filterByCategory (Some d) category =
    Normal (Some (withGraph d
      (filter (λ node, Node.category node = category) ns)
      (filter (λ link,
                 Link.source link ∈ (list_to_set (Node.id <$>
                    filter (λ node, Node.category node = category) ns) : gset string) ∧
                 Link.target link ∈ (list_to_set (Node.id <$>
                    filter (λ node, Node.category node = category) ns) : gset string))
         ls))).
Proof.
  intros Hg Hc. unfold filterByCategory. rewrite Hg.
  by rewrite decide_False by done.
Qed.

Lemma filterByMinFlow_run d ns ls minFlow :
  graph d = Some (graphOf ns ls) → 0 < minFlow →
  filterByMinFlow (Some d) minFlow =
    Normal (Some (withGraph d
      (filter (λ node, Node.id node ∈
                 connectedNodeIds (filter (λ link, keepLink minFlow link = true) ls)) ns)
      (filter (λ link, keepLink minFlow link = true) ls))).
Proof.
  intros Hg Hpos. unfold filterByMinFlow. rewrite Hg.
  by rewrite bool_decide_eq_false_2 by lia.
Qed.

Lemma elem_of_nodeIds (ns : list Node.t) k :
  k ∈ (list_to_set (Node.id <$> ns) : gset string) ↔ isNodeId ns k.
Proof.
  rewrite elem_of_list_to_set, list_elem_of_fmap. unfold isNodeId. naive_solver.
Qed.

(** X1: for a category other than ['all'], [filterByCategory] keeps exactly
    the nodes of that category, isolated ones included, and exactly the
    links whose two ends are ids of kept nodes: the result has no dangling
    link.  The other fields of the data are passed on. *)
Theorem filterByCategory_spec (d : Data) (ns : list Node.t) (ls : list Link.t)
    (category : string) :
  graph d = Some (graphOf ns ls) → category ≠ "all" →
  ∃ ns' ls',
    filterByCategory (Some d) category = Normal (Some (withGraph d ns' ls')) ∧
    (∀ node, node ∈ ns' ↔ node ∈ ns ∧ Node.category node = category) ∧
    (∀ link, link ∈ ls' ↔
             link ∈ ls ∧ isNodeId ns' (Link.source link) ∧ isNodeId ns' (Link.target link)) ∧
    wellLinked ns' ls'.
Proof.
  intros Hg Hc. eexists _, _. split; [by apply filterByCategory_run|].
  assert (∀ link,
    link ∈ filter (λ link,
                 Link.source link ∈ (list_to_set (Node.id <$>
                    filter (λ node, Node.category node = category) ns) : gset string) ∧
                 Link.target link ∈ (list_to_set (Node.id <$>
                    filter (λ node, Node.category node = category) ns) : gset string)) ls
    ↔ link ∈ ls ∧
      isNodeId (filter (λ node, Node.category node = category) ns) (Link.source link) ∧
      isNodeId (filter (λ node, Node.category node = category) ns) (Link.target link))
    as Hlinks.
  { intros link. rewrite list_elem_of_filter, !elem_of_nodeIds. naive_solver. }
  split_and!; [|done|].
  - intros node. rewrite list_elem_of_filter. naive_solver.
  - intros link Hl. apply Hlinks in Hl. naive_solver.
Qed.

Lemma filterByCategory_spec_witness :
  let ns := [Node.mk "A" "A" "tech" 3; Node.mk "B" "B" "tech" 1; Node.mk "C" "C" "gaming" 2] in
  let ls := [lk "A" "B" 4; lk "B" "C" 9] in
  let d := withGraph emptyData ns ls in
  graph d = Some (graphOf ns ls) ∧ "tech" ≠ "all" ∧
  ∃ ns' ls',
    filterByCategory (Some d) "tech" = Normal (Some (withGraph d ns' ls')) ∧
    wellLinked ns' ls'.
Proof.
  intros ns ls d.
  assert (graph d = Some (graphOf ns ls)) as Hg by reflexivity.
  assert ("tech" ≠ "all") as Hc by discriminate.
  destruct (filterByCategory_spec d ns ls "tech" Hg Hc) as (ns' & ls' & Hrun & _ & _ & Hwl).
  split; [exact Hg|]. split; [exact Hc|]. exists ns', ls'. split; [exact Hrun|exact Hwl].
Defined.

(** X2: filtering twice by the same category changes nothing more, and
    filtering the result by a different category (other than ['all'])
    leaves an empty graph. *)
Theorem filterByCategory_twice (d : Data) (ns : list Node.t) (ls : list Link.t)
    (c1 c2 : string) (r : option Data) :
  graph d = Some (graphOf ns ls) → c1 ≠ "all" → c2 ≠ "all" →
  filterByCategory (Some d) c1 = Normal r →
  filterByCategory r c2 =
    if decide (c1 = c2) then Normal r else Normal (Some (withGraph d [] [])).
Proof.
  intros Hg Hc1 Hc2. rewrite (filterByCategory_run d ns ls) by done.
  intros [= <-].
  rewrite (filterByCategory_run _ _ _ c2) by done.
  set (ns1 := filter (λ node, Node.category node = c1) ns).
  destruct (decide (c1 = c2)) as [<-|Hne].
  - assert (filter (λ node, Node.category node = c1) ns1 = ns1) as ->
      by (by apply list_filter_filter_r).
    by rewrite list_filter_filter_r by done.
  - assert (filter (λ node, Node.category node = c2) ns1 = []) as ->.
    { unfold ns1. rewrite list_filter_filter. apply elem_of_nil_inv. intros node Hin.
      apply list_elem_of_filter in Hin as [[? ?] _]. congruence. }
    replace (filter _ (filter _ ls)) with (@nil Link.t); [done|].
    symmetry. apply elem_of_nil_inv. intros link Hin.
    apply list_elem_of_filter in Hin as [[Hs _] _]. set_solver.
Qed.

Lemma filterByCategory_twice_witness :
  let ns := [Node.mk "A" "A" "tech" 3; Node.mk "B" "B" "tech" 1; Node.mk "C" "C" "gaming" 2] in
  let ls := [lk "A" "B" 4; lk "B" "C" 9] in
  let d := withGraph emptyData ns ls in
  let r := Some (withGraph d [Node.mk "A" "A" "tech" 3; Node.mk "B" "B" "tech" 1]
                   [lk "A" "B" 4]) in
  graph d = Some (graphOf ns ls) ∧ "tech" ≠ "all" ∧ "gaming" ≠ "all" ∧
  filterByCategory (Some d) "tech" = Normal r ∧
  filterByCategory r "tech" = Normal r ∧
  filterByCategory r "gaming" = Normal (Some (withGraph d [] [])).
Proof.
  intros ns ls d r.
  assert (graph d = Some (graphOf ns ls)) as Hg by reflexivity.
  assert ("tech" ≠ "all") as H1 by discriminate.
  assert ("gaming" ≠ "all") as H2 by discriminate.
  assert (filterByCategory (Some d) "tech" = Normal r) as Hr by (vm_compute; reflexivity).
  split; [exact Hg|]. split; [exact H1|]. split; [exact H2|]. split; [exact Hr|].
  split.
  - exact (filterByCategory_twice d ns ls "tech" "tech" r Hg H1 H1 Hr).
  - exact (filterByCategory_twice d ns ls "tech" "gaming" r Hg H1 H2 Hr).
Defined.

Lemma minFlow_wellLinked ns ls minFlow :
  wellLinked ns ls →
  wellLinked
    (filter (λ node, Node.id node ∈
               connectedNodeIds (filter (λ link, keepLink minFlow link = true) ls)) ns)
    (filter (λ link, keepLink minFlow link = true) ls).
Proof.
  intros Hwl link Hin.
  assert (∀ k, isNodeId ns k →
            (k = Link.source link ∨ k = Link.target link) →
            isNodeId (filter (λ node, Node.id node ∈
               connectedNodeIds (filter (λ link, keepLink minFlow link = true) ls)) ns) k)
    as Hkeep.
  { intros k (node & Hnode & <-) Hk. exists node. split; [|done].
    apply list_elem_of_filter. split; [|done].
    apply elem_of_connectedNodeIds. exists link. naive_solver. }
  pose proof Hin as Hin'. apply list_elem_of_filter in Hin' as [_ Hl].
  destruct (Hwl link Hl). split; apply Hkeep; auto.
Qed.

Lemma minFlow_allConnected ns ls minFlow :
  allConnected
    (filter (λ node, Node.id node ∈
               connectedNodeIds (filter (λ link, keepLink minFlow link = true) ls)) ns)
    (filter (λ link, keepLink minFlow link = true) ls).
Proof.
  intros node Hin. apply list_elem_of_filter in Hin as [Hc _].
  apply elem_of_connectedNodeIds in Hc. unfold touches. naive_solver.
Qed.

(** X3: filtering by a threshold and then by a higher one gives what
    filtering by the higher one alone gives; in particular filtering twice
    by the same threshold changes nothing more. *)
Theorem filterByMinFlow_raise (d : Data) (ns : list Node.t) (ls : list Link.t)
    (m1 m2 : Z) (r : option Data) :
  graph d = Some (graphOf ns ls) → 0 < m1 → (m1 ≤ m2)%Z →
  filterByMinFlow (Some d) m1 = Normal r →
  filterByMinFlow r m2 = filterByMinFlow (Some d) m2.
Proof.
  intros Hg H1 H12. rewrite (filterByMinFlow_run d ns ls m1) by done.
  intros [= <-].
  rewrite (filterByMinFlow_run (withGraph d _ _) _ _ m2 eq_refl) by lia.
  rewrite (filterByMinFlow_run d ns ls m2) by (done || lia).
  assert (filter (λ link, keepLink m2 link = true)
            (filter (λ link, keepLink m1 link = true) ls)
          = filter (λ link, keepLink m2 link = true) ls) as ->.
  { apply list_filter_filter_l. intros link. unfold keepLink.
    rewrite !bool_decide_eq_true. lia. }
  rewrite list_filter_filter_l; [done|].
  intros node. rewrite !elem_of_connectedNodeIds.
  intros (link & Hin & Hends). exists link. split; [|done].
  apply list_elem_of_filter in Hin as [Hk Hin]. apply list_elem_of_filter.
  split; [|done]. unfold keepLink in *. rewrite bool_decide_eq_true in *. lia.
Qed.

Lemma filterByMinFlow_raise_witness :
  let ns := [nd "A"; nd "B"; nd "C"; nd "D"] in
  let ls := [lk "A" "B" 7; lk "B" "C" 2; lk "C" "D" 4] in
  let d := withGraph emptyData ns ls in
  let r := Some (withGraph d [nd "A"; nd "B"; nd "C"; nd "D"]
                   [lk "A" "B" 7; lk "C" "D" 4]) in
  graph d = Some (graphOf ns ls) ∧ 0 < 3 ∧ (3 ≤ 5)%Z ∧
  filterByMinFlow (Some d) 3 = Normal r ∧
  filterByMinFlow r 5 = filterByMinFlow (Some d) 5.
Proof.
  intros ns ls d r.
  assert (graph d = Some (graphOf ns ls)) as Hg by reflexivity.
  assert (0 < 3) as H1 by lia.
  assert (3 ≤ 5)%Z as H2 by lia.
  assert (filterByMinFlow (Some d) 3 = Normal r) as Hr by (vm_compute; reflexivity).
  split; [exact Hg|]. split; [exact H1|]. split; [exact H2|]. split; [exact Hr|].
  exact (filterByMinFlow_raise d ns ls 3 5 r Hg H1 H2 Hr).
Defined.

(** X4: when no link of the input dangles, none of the output of
    [filterByMinFlow] does: both ends of every retained link are ids of
    retained nodes. *)
Theorem filterByMinFlow_keeps_links_attached (d : Data) (ns : list Node.t)
    (ls : list Link.t) (minFlow : Z) :
  graph d = Some (graphOf ns ls) → 0 < minFlow → wellLinked ns ls →
  ∃ ns' ls',
    filterByMinFlow (Some d) minFlow = Normal (Some (withGraph d ns' ls')) ∧
    wellLinked ns' ls'.
Proof.
  intros Hg Hpos Hwl. eexists _, _.
  split; [by apply filterByMinFlow_run|]. by apply minFlow_wellLinked.
Qed.

Lemma isNodeId_fmap ns k : isNodeId ns k ↔ k ∈ Node.id <$> ns.
Proof. unfold isNodeId. rewrite list_elem_of_fmap. naive_solver. Qed.

Lemma abcd_wellLinked :
  wellLinked [nd "A"; nd "B"; nd "C"; nd "D"] [lk "A" "B" 7; lk "B" "C" 2; lk "C" "D" 4].
Proof.
  intros link Hin. rewrite !isNodeId_fmap. simpl.
  repeat (apply elem_of_cons in Hin as [->|Hin]; [simpl; set_solver|]).
  by apply elem_of_nil in Hin.
Qed.

Lemma filterByMinFlow_keeps_links_attached_witness :
  let ns := [nd "A"; nd "B"; nd "C"; nd "D"] in
  let ls := [lk "A" "B" 7; lk "B" "C" 2; lk "C" "D" 4] in
  let d := withGraph emptyData ns ls in
  graph d = Some (graphOf ns ls) ∧ 0 < 3 ∧ wellLinked ns ls ∧
  ∃ ns' ls',
    filterByMinFlow (Some d) 3 = Normal (Some (withGraph d ns' ls')) ∧
    wellLinked ns' ls'.
Proof.
  intros ns ls d.
  assert (graph d = Some (graphOf ns ls)) as Hg by reflexivity.
  assert (0 < 3) as H1 by lia.
  split; [exact Hg|]. split; [exact H1|]. split; [exact abcd_wellLinked|].
  exact (filterByMinFlow_keeps_links_attached d ns ls 3 Hg H1 abcd_wellLinked).
Defined.

(** X5: with a category other than ['all'] and a positive threshold, the
    graph [App] hands to its components has only nodes of the category,
    only links of at least the threshold, no dangling link and no isolated
    node - whatever the loaded graph looked like. *)
Theorem applyFilters_consistent (d : Data) (ns : list Node.t) (ls : list Link.t)
    (category : string) (minFlow : Z) :
  graph d = Some (graphOf ns ls) → category ≠ "all" → 0 < minFlow →
  ∃ ns' ls',
    applyFilters d category minFlow = Normal (Some (withGraph d ns' ls')) ∧
    (∀ node, node ∈ ns' → node ∈ ns ∧ Node.category node = category) ∧
    (∀ link, link ∈ ls' → link ∈ ls ∧ (minFlow ≤ Link.value link)%Z) ∧
    wellLinked ns' ls' ∧ allConnected ns' ls'.
Proof.
  intros Hg Hc Hpos. unfold applyFilters.
  rewrite decide_True by done.
  rewrite (filterByCategory_run d ns ls) by done.
  unfold mbind, completion_bind.
  rewrite bool_decide_eq_true_2 by done.
  rewrite (filterByMinFlow_run (withGraph d _ _) _ _ minFlow eq_refl) by done.
  eexists _, _. split; [reflexivity|]. split_and!.
  - intros node Hin. apply list_elem_of_filter in Hin as [_ Hin].
    apply list_elem_of_filter in Hin. naive_solver.
  - intros link Hin. apply list_elem_of_filter in Hin as [Hk Hin].
    apply list_elem_of_filter in Hin as [_ Hin].
    unfold keepLink in Hk. rewrite bool_decide_eq_true in Hk. done.
  - apply minFlow_wellLinked. intros link Hin.
    apply list_elem_of_filter in Hin as [[Hs Ht] _].
    by rewrite !elem_of_nodeIds in Hs, Ht.
  - apply minFlow_allConnected.
Qed.

Lemma applyFilters_consistent_witness :
  let ns := [Node.mk "A" "A" "tech" 3; Node.mk "B" "B" "tech" 1;
             Node.mk "C" "C" "gaming" 2; Node.mk "D" "D" "tech" 2] in
  let ls := [lk "A" "B" 4; lk "B" "C" 9; lk "D" "X" 5] in
  let d := withGraph emptyData ns ls in
  graph d = Some (graphOf ns ls) ∧ "tech" ≠ "all" ∧ 0 < 2 ∧
  ∃ ns' ls',
    applyFilters d "tech" 2 = Normal (Some (withGraph d ns' ls')) ∧
    wellLinked ns' ls' ∧ allConnected ns' ls'.
Proof.
  intros ns ls d.
  assert (graph d = Some (graphOf ns ls)) as Hg by reflexivity.
  assert ("tech" ≠ "all") as Hc by discriminate.
  assert (0 < 2) as Hpos by lia.
  destruct (applyFilters_consistent d ns ls "tech" 2 Hg Hc Hpos)
    as (ns' & ls' & Hrun & _ & _ & Hwl & Hac).
  split; [exact Hg|]. split; [exact Hc|]. split; [exact Hpos|].
  exists ns', ls'. split; [exact Hrun|]. split; [exact Hwl|exact Hac].
Defined.


(** ** Flows of a node *)

Lemma sumOver_app {A} (f : A → Z) l1 l2 :
  sumOver f (l1 ++ l2) = sumOver f l1 + sumOver f l2.
Proof. induction l1 as [|x l1 IH]; simpl; [done|]. rewrite IH. lia. Qed.

Lemma sumOver_plus {A} (f g : A → Z) l :
  sumOver (λ x, f x + g x) l = sumOver f l + sumOver g l.
Proof. induction l as [|x l IH]; simpl; [done|]. rewrite IH. lia. Qed.

Lemma sumOver_opp {A} (f : A → Z) l :
  sumOver (λ x, - f x) l = - sumOver f l.
Proof. unfold sumOver. induction l as [|x l IH]; simpl; [done|]. rewrite IH. lia. Qed.

Lemma sumOver_ext {A} (f g : A → Z) l :
  (∀ x, x ∈ l → f x = g x) → sumOver f l = sumOver g l.
Proof.
  induction l as [|x l IH]; intros Hfg; simpl; [done|].
  rewrite Hfg by (by left). rewrite IH; [done|]. intros y Hy. apply Hfg. by right.
Qed.

(** A value attached to one id is counted once over nodes of distinct ids. *)
Lemma sumOver_single ns k v :
  NoDup (Node.id <$> ns) → isNodeId ns k →
  sumOver (λ node, if decide (k = Node.id node) then v else 0) ns = v.
Proof.
  induction ns as [|n ns IH]; intros Hnd (node & Hin & Hk).
  - by apply elem_of_nil in Hin.
  - simpl in *. apply NoDup_cons in Hnd as [Hn Hnd].
    destruct (decide (k = Node.id n)) as [->|Hne].
    + assert (sumOver (λ node, if decide (Node.id n = Node.id node) then v else 0) ns = 0)
        as ->; [|lia].
      clear IH Hin. induction ns as [|m ns IH]; simpl; [done|].
      apply not_elem_of_cons in Hn as [Hm Hn]. apply NoDup_cons in Hnd as [_ Hnd].
      rewrite decide_False by done. by rewrite IH.
    + rewrite IH; [lia|done|]. exists node. split; [|done].
      apply elem_of_cons in Hin as [->|Hin]; [congruence|done].
Qed.

Lemma sumOver_filter_links (key : Link.t → string) ns ls :
  NoDup (Node.id <$> ns) →
  (∀ link, link ∈ ls → isNodeId ns (key link)) →
  sumOver (λ node, sumOfValues (filter (λ link, key link = Node.id node) ls)) ns
  = sumOfValues ls.
Proof.
  intros Hnd. induction ls as [|l ls IH]; intros Hids.
  - simpl. clear. induction ns as [|n ns IHn]; simpl; [done|]. by rewrite IHn.
  - rewrite (sumOver_ext _
      (λ node, (if decide (key l = Node.id node) then Link.value l else 0)
               + sumOfValues (filter (λ link, key link = Node.id node) ls))).
    2:{ intros node _. rewrite filter_cons. by destruct (decide _). }
    rewrite sumOver_plus, IH by (intros link Hin; apply Hids; by right).
    rewrite sumOver_single; [done..|]. apply Hids. by left.
Qed.

(** X6: in a graph whose nodes have distinct ids and whose links do not
    dangle, the incoming flows of all nodes add up to the total flow of the
    graph, and so do the outgoing flows: over all nodes the net flow is 0
    and the [total] of [calculateNodeFlow] adds up to twice the total. *)
Theorem flow_conservation (ns : list Node.t) (ls : list Link.t) :
  NoDup (Node.id <$> ns) → wellLinked ns ls →
  let flowOf node := calculateNodeFlow (Some (graphOf ns ls)) (Node.id node) in
  sumOver (λ node, Flow.incoming (flowOf node)) ns = sumOfValues ls ∧
  sumOver (λ node, Flow.outgoing (flowOf node)) ns = sumOfValues ls ∧
  sumOver (λ node, Flow.incoming (flowOf node) - Flow.outgoing (flowOf node)) ns = 0 ∧
  sumOver (λ node, Flow.total (flowOf node)) ns = 2 * sumOfValues ls.
Proof.
  intros Hnd Hwl flowOf.
  assert (sumOver (λ node, Flow.incoming (flowOf node)) ns = sumOfValues ls) as Hin.
  { unfold flowOf, calculateNodeFlow. simpl.
    rewrite (sumOver_ext _
      (λ node, sumOfValues (filter (λ link, Link.target link = Node.id node) ls)))
      by (intros; apply totalValue_sum).
    apply sumOver_filter_links; [done|]. intros link Hl. by apply Hwl. }
  assert (sumOver (λ node, Flow.outgoing (flowOf node)) ns = sumOfValues ls) as Hout.
  { unfold flowOf, calculateNodeFlow. simpl.
    rewrite (sumOver_ext _
      (λ node, sumOfValues (filter (λ link, Link.source link = Node.id node) ls)))
      by (intros; apply totalValue_sum).
    apply sumOver_filter_links; [done|]. intros link Hl. by apply Hwl. }
  split_and!; [done..| |].
  - rewrite (sumOver_ext _
      (λ node, Flow.incoming (flowOf node) + - Flow.outgoing (flowOf node)))
      by (intros; lia).
    rewrite sumOver_plus, Hin.
    rewrite sumOver_opp. lia.
  - rewrite (sumOver_ext _
      (λ node, Flow.incoming (flowOf node) + Flow.outgoing (flowOf node)))
      by done.
    rewrite sumOver_plus. lia.
Qed.

Lemma flow_conservation_witness :
  let ns := [nd "A"; nd "B"; nd "C"; nd "D"] in
  let ls := [lk "A" "B" 7; lk "B" "C" 2; lk "C" "D" 4] in
  let flowOf node := calculateNodeFlow (Some (graphOf ns ls)) (Node.id node) in
  NoDup (Node.id <$> ns) ∧ wellLinked ns ls ∧
  sumOver (λ node, Flow.incoming (flowOf node) - Flow.outgoing (flowOf node)) ns = 0.
Proof.
  intros ns ls flowOf.
  assert (NoDup (Node.id <$> ns)) as Hnd
    by (simpl; repeat (apply NoDup_cons_2; [set_solver|]); apply NoDup_nil_2).
  destruct (flow_conservation ns ls Hnd abcd_wellLinked) as (_ & _ & Hnet & _).
  split; [exact Hnd|]. split; [exact abcd_wellLinked|exact Hnet].
Defined.

(** ** getTopFlows *)

Lemma insertByValue_perm x sorted : insertByValue x sorted ≡ₚ x :: sorted.
Proof.
  induction sorted as [|y sorted IH]; simpl; [done|].
  case_bool_decide; [done|]. rewrite IH. apply Permutation_swap.
Qed.

Lemma sortByValueDesc_perm ls : sortByValueDesc ls ≡ₚ ls.
Proof.
  unfold sortByValueDesc. induction ls as [|x ls IH]; simpl; [done|].
  by rewrite insertByValue_perm, IH.
Qed.

(** Sorting keeps the links of one value in the order they had. *)
Lemma insertByValue_stable v x sorted :
  filter (λ link, Link.value link = v) (insertByValue x sorted)
  = filter (λ link, Link.value link = v) (x :: sorted).
Proof.
  induction sorted as [|y sorted IH]; simpl; [done|].
  case_bool_decide as Hle; [done|].
  rewrite filter_cons, IH, !filter_cons.
  destruct (decide (Link.value y = v)), (decide (Link.value x = v)); try done. lia.
Qed.

Lemma sortByValueDesc_stable_filter v ls :
  filter (λ link, Link.value link = v) (sortByValueDesc ls)
  = filter (λ link, Link.value link = v) ls.
Proof.
  unfold sortByValueDesc. induction ls as [|x ls IH]; simpl; [done|].
  by rewrite insertByValue_stable, !filter_cons, IH.
Qed.

Lemma length_sliceFromStart {A} (n : Z) (l : list A) :
  length (sliceFromStart n l) = keptBySlice n (length l).
Proof.
  unfold sliceFromStart, keptBySlice. rewrite length_take.
  case_bool_decide; lia.
Qed.

Lemma getTopFlows_slice ls n :
  getTopFlows (Some ls) n = sliceFromStart (default 5 n) (sortByValueDesc ls).
Proof. destruct ls; [|done]. unfold sliceFromStart. simpl. by rewrite take_nil. Qed.

(** X7: [getTopFlows] returns the links of largest value, largest first:
    the number [slice(0, n)] keeps (all but the last [-n] when [n] is
    negative, 5 when [n] is left out), in descending order of value, and
    every link left out has a value no larger than any link returned. *)
Theorem getTopFlows_largest (ls : list Link.t) (n : option Z) :
  let top := getTopFlows (Some ls) n in
  length top = keptBySlice (default 5 n) (length ls) ∧
  StronglySorted byValueDesc top ∧
  ∃ rest, top ++ rest ≡ₚ ls ∧
          ∀ a b, a ∈ top → b ∈ rest → (Link.value b ≤ Link.value a)%Z.
Proof.
  intros top. unfold top. rewrite getTopFlows_slice.
  split; [by rewrite length_sliceFromStart, length_sortByValueDesc|].
  unfold sliceFromStart.
  set (k := Z.to_nat _).
  pose proof (sortByValueDesc_sorted ls) as Hs.
  rewrite <- (take_drop k (sortByValueDesc ls)) in Hs.
  apply StronglySorted_app in Hs as (Hcross & Htop & _).
  split; [done|]. exists (drop k (sortByValueDesc ls)).
  split; [by rewrite take_drop, sortByValueDesc_perm|].
  intros a b Ha Hb. by apply Hcross.
Qed.

(** X8: ties keep the input order: for every value, the links of that value
    which [getTopFlows] returns are the first ones of that value in the
    input, in the same order. *)
Theorem getTopFlows_ties (ls : list Link.t) (n : option Z) (v : Z) :
  filter (λ link, Link.value link = v) (getTopFlows (Some ls) n)
  `prefix_of` filter (λ link, Link.value link = v) ls.
Proof.
  rewrite getTopFlows_slice. unfold sliceFromStart. set (k := Z.to_nat _).
  rewrite <- (sortByValueDesc_stable_filter v ls).
  rewrite <- (take_drop k (sortByValueDesc ls)) at 2.
  rewrite filter_app. by apply prefix_app_r.
Qed.

(** ** The two side panels *)

(** X9: [MigrationStats] never shows "No data available for this
    community": the null result of [calculateCommunityStats] it tests for
    arises only for arguments the component has already turned away. *)
Theorem migrationStats_never_no_data (selectedCommunity : option string)
    (graph : option Graph) :
  migrationStats selectedCommunity graph ≠ Normal NoDataMessage.
Proof.
  unfold migrationStats.
  destruct selectedCommunity as [c|], graph as [g|]; try done.
  destruct (decide (c = "")) as [|Hc]; [done|].
  unfold calculateCommunityStats. rewrite decide_False by done.
  destruct (links g); [|done]. simpl.
  by case_bool_decide.
Qed.

Lemma sliceFromStart_take {A} (n : nat) (l : list A) :
  sliceFromStart (Z.of_nat n) l = take n l.
Proof.
  unfold sliceFromStart. rewrite bool_decide_eq_false_2 by lia.
  by rewrite Nat2Z.id.
Qed.

(** X10: for a community that is a node of the graph, [CommunityDetail] and
    [MigrationStats] agree: the net flow, the incoming and outgoing totals
    and the number of connections are the same, and the top-5 lists of the
    one are the first five entries of the lists of the other; when the
    node has no connection, [MigrationStats] shows its "no connections"
    message instead. *)
Theorem panels_agree (ns : list Node.t) (ls : list Link.t) (c : string) :
  c ≠ "" → isNodeId ns c →
  ∃ view,
    communityDetail (Some c) (Some (graphOf ns ls)) = Normal (Some view) ∧
    Node.id (detailNode view) = c ∧
    ((connections view = 0%nat ∧
      migrationStats (Some c) (Some (graphOf ns ls)) = Normal NoConnectionsMessage) ∨
     (∃ stats incomingData outgoingData,
        migrationStats (Some c) (Some (graphOf ns ls))
        = Normal (Charts stats incomingData outgoingData) ∧
        netFlow stats = net view ∧
        total (incoming stats) = Flow.incoming (flow view) ∧
        total (outgoing stats) = Flow.outgoing (flow view) ∧
        (count (incoming stats) + count (outgoing stats))%nat = connections view ∧
        top (incoming stats) = take 5 (incomingList view) ∧
        top (outgoing stats) = take 5 (outgoingList view))).
Proof.
  intros Hc (node & Hin & Hid).
  unfold communityDetail, migrationStats. simpl.
  rewrite !decide_False by done.
  destruct (list_find (λ n, Node.id n = c) ns) as [[i found]|] eqn:Hfind.
  2:{ apply list_find_None in Hfind. rewrite Forall_forall in Hfind.
      by destruct (Hfind node Hin). }
  apply list_find_Some in Hfind as (_ & Hfound & _).
  eexists. split; [reflexivity|]. split; [done|]. simpl.
  case_bool_decide as Hany.
  - right. eexists _, _, _. split; [reflexivity|]. simpl.
    change 10 with (Z.of_nat 10). rewrite !sliceFromStart_take, !take_take.
    done.
  - left. split; [lia|done].
Qed.

Lemma panels_agree_witness :
  let ns := [nd "A"; nd "B"; nd "C"] in
  let ls := [lk "A" "B" 4; lk "C" "B" 9; lk "B" "A" 2] in
  "B" ≠ "" ∧ isNodeId ns "B" ∧
  ∃ view,
    communityDetail (Some "B") (Some (graphOf ns ls)) = Normal (Some view) ∧
    Node.id (detailNode view) = "B".
Proof.
  intros ns ls.
  assert ("B" ≠ "") as Hc by discriminate.
  assert (isNodeId ns "B") as Hid by (apply isNodeId_fmap; simpl; set_solver).
  destruct (panels_agree ns ls "B" Hc Hid) as (view & Hrun & Hnode & _).
  split; [exact Hc|]. split; [exact Hid|]. exists view. split; [exact Hrun|exact Hnode].
Defined.

Lemma length_pos_elem_of {A} (l : list A) x : x ∈ l → (0 < length l)%nat.
Proof. destruct l; [by intros ?%elem_of_nil|simpl; lia]. Qed.

(** X11: after [filterByMinFlow] with a positive threshold, every node left
    in the graph (with a non-empty id) has charts in [MigrationStats]: the
    "no migration connections in the current filter" message cannot appear
    for it. *)
Theorem filtered_nodes_have_charts (d : Data) (ns : list Node.t) (ls : list Link.t)
    (minFlow : Z) (ns' : list Node.t) (ls' : list Link.t) (node : Node.t) :
  graph d = Some (graphOf ns ls) → 0 < minFlow →
  filterByMinFlow (Some d) minFlow = Normal (Some (withGraph d ns' ls')) →
  node ∈ ns' → Node.id node ≠ "" →
  ∃ stats incomingData outgoingData,
    migrationStats (Some (Node.id node)) (Some (graphOf ns' ls'))
    = Normal (Charts stats incomingData outgoingData).
Proof.
  intros Hg Hpos. rewrite (filterByMinFlow_run d ns ls) by done.
  intros [= <- <-] Hin Hid.
  apply minFlow_allConnected in Hin as (link & Hl & Htouch).
  unfold migrationStats, calculateCommunityStats. simpl.
  rewrite !decide_False by done. simpl.
  rewrite bool_decide_eq_true_2; [by eexists _, _, _|].
  destruct Htouch as [Hs|Ht].
  - right. apply (length_pos_elem_of _ link), list_elem_of_filter. done.
  - left. apply (length_pos_elem_of _ link), list_elem_of_filter. done.
Qed.

(** ** calculateNetworkStats *)

Lemma mapGet_mapSet k k' v m :
  mapGet k' (mapSet k v m) = if decide (k = k') then Some v else mapGet k' m.
Proof.
  induction m as [|[k0 v0] m IH]; simpl.
  - by destruct (decide (k = k')).
  - destruct (decide (k0 = k)) as [->|Hne]; simpl.
    + by destruct (decide (k = k')).
    + destruct (decide (k0 = k')) as [->|]; [by rewrite decide_False|done].
Qed.

Lemma sumOver_mapSet k v m :
  sumOver snd (mapSet k v m) = sumOver snd m + v - default 0 (mapGet k m).
Proof.
  induction m as [|[k0 v0] m IH]; simpl; [lia|].
  destruct (decide (k0 = k)); simpl; [lia|]. rewrite IH. lia.
Qed.

Lemma sumOver_bumpDegree m k : sumOver snd (bumpDegree m k) = sumOver snd m + 1.
Proof. unfold bumpDegree. rewrite sumOver_mapSet. lia. Qed.

Lemma mapGet_bumpDegree m k k' :
  mapGet k' (bumpDegree m k)
  = if decide (k = k') then Some (default 0 (mapGet k m) + 1) else mapGet k' m.
Proof. unfold bumpDegree. apply mapGet_mapSet. Qed.

Lemma mapGet_init ns k :
  mapGet k (foldl (λ m node, mapSet (Node.id node) 0 m) [] ns)
  = if decide (isNodeId ns k) then Some 0 else None.
Proof.
  induction ns as [|n ns IH] using rev_ind.
  - done.
  - rewrite foldl_snoc, mapGet_mapSet, IH.
    destruct (decide (Node.id n = k)) as [<-|Hne].
    + rewrite decide_True; [done|]. exists n. split; [|done]. set_solver.
    + apply decide_ext. unfold isNodeId. setoid_rewrite elem_of_app.
      setoid_rewrite list_elem_of_singleton. naive_solver.
Qed.

Lemma sumOver_init ns :
  sumOver snd (foldl (λ m node, mapSet (Node.id node) 0 m) [] ns) = 0.
Proof.
  induction ns as [|n ns IH] using rev_ind; [done|].
  rewrite foldl_snoc, sumOver_mapSet, IH, mapGet_init.
  by destruct (decide _).
Qed.

Lemma degreeOf_snoc ls l k :
  degreeOf (ls ++ [l]) k
  = degreeOf ls k + (if decide (Link.source l = k) then 1 else 0)
    + (if decide (Link.target l = k) then 1 else 0).
Proof.
  unfold degreeOf. rewrite !filter_app, !length_app, !filter_cons, !filter_nil.
  destruct (decide (Link.source l = k)), (decide (Link.target l = k)); simpl; lia.
Qed.

Lemma degreeOf_nonneg ls k : (0 ≤ degreeOf ls k)%Z.
Proof. unfold degreeOf. lia. Qed.

Lemma isLinkEnd_snoc ls l k :
  isLinkEnd (ls ++ [l]) k ↔ isLinkEnd ls k ∨ Link.source l = k ∨ Link.target l = k.
Proof.
  unfold isLinkEnd. setoid_rewrite elem_of_app.
  setoid_rewrite list_elem_of_singleton. naive_solver.
Qed.

Lemma degreeOf_isLinkEnd ls k : 0 < degreeOf ls k ↔ isLinkEnd ls k.
Proof.
  induction ls as [|l ls IH] using rev_ind.
  - split; [unfold degreeOf; simpl; lia|]. intros (? & ?%elem_of_nil & _). done.
  - rewrite degreeOf_snoc, isLinkEnd_snoc. pose proof (degreeOf_nonneg ls k).
    destruct (decide (Link.source l = k)), (decide (Link.target l = k));
      split; intros; auto; try lia.
    + left. apply IH. lia.
    + assert (0 < degreeOf ls k); [|lia]. apply IH. naive_solver.
Qed.

Lemma mapGet_nodeDegrees ns ls k :
  mapGet k (nodeDegrees ns ls)
  = if decide (isNodeId ns k ∨ isLinkEnd ls k) then Some (degreeOf ls k) else None.
Proof.
  unfold nodeDegrees. revert k. induction ls as [|l ls IH] using rev_ind; intros k.
  - simpl. rewrite mapGet_init.
    destruct (decide (isNodeId ns k)) as [Hn|Hn].
    + by rewrite decide_True by (by left).
    + rewrite decide_False; [done|]. intros [?|(? & ?%elem_of_nil & _)]; done.
  - rewrite foldl_snoc. set (m := foldl _ _ ls) in *.
    assert (∀ k', default 0 (mapGet k' m) = degreeOf ls k') as Hdeg.
    { intros k'. rewrite IH. destruct (decide _) as [|Hno]; [done|]. simpl.
      pose proof (degreeOf_nonneg ls k'). pose proof (degreeOf_isLinkEnd ls k').
      destruct (decide (0 < degreeOf ls k')); [|lia]. destruct Hno. right. naive_solver. }
    rewrite !mapGet_bumpDegree, degreeOf_snoc.
    pose proof (isLinkEnd_snoc ls l k) as Hend.
    destruct (decide (Link.target l = k)) as [Ht|Ht],
             (decide (Link.source l = k)) as [Hs|Hs]; simpl.
    + rewrite decide_True by congruence. simpl. rewrite Hdeg.
      rewrite decide_True by naive_solver. f_equal. rewrite Hs. lia.
    + rewrite decide_False by congruence. rewrite Hdeg.
      rewrite decide_True by naive_solver. f_equal. rewrite Ht. lia.
    + rewrite Hdeg. rewrite decide_True by naive_solver. f_equal. rewrite Hs. lia.
    + rewrite IH. rewrite !Z.add_0_r. apply decide_ext. naive_solver.
Qed.

Lemma keys_mapSet k v m : (mapSet k v m).*1 = setAdd k (m.*1).
Proof.
  unfold setAdd. induction m as [|[k0 v0] m IH]; [done|].
  cbn [mapSet]. destruct (decide (k0 = k)) as [->|Hne]; rewrite !fmap_cons; cbn [fst].
  - by rewrite decide_True by (by left).
  - rewrite IH. destruct (decide (k ∈ m.*1)).
    + by rewrite decide_True by (by right).
    + rewrite decide_False; [done|]. intros [?|?]%elem_of_cons; done.
Qed.

Lemma keys_nodeDegrees ns ls : (nodeDegrees ns ls).*1 = degreeKeys ns ls.
Proof.
  unfold nodeDegrees, degreeKeys.
  induction ls as [|l ls IH] using rev_ind.
  - simpl. induction ns as [|n ns IHn] using rev_ind; [done|].
    by rewrite !foldl_snoc, keys_mapSet, IHn.
  - rewrite !foldl_snoc.
    assert (∀ m k, (bumpDegree m k).*1 = setAdd k (m.*1)) as Hbump
      by (intros; apply keys_mapSet).
    by rewrite !Hbump, IH.
Qed.

Lemma setAdd_NoDup k keys : NoDup keys → NoDup (setAdd k keys).
Proof.
  intros Hnd. unfold setAdd. destruct (decide _); [done|].
  apply NoDup_app. split_and!; [done| |apply NoDup_singleton].
  intros x Hx ->%list_elem_of_singleton. done.
Qed.

Lemma degreeKeys_NoDup ns ls : NoDup (degreeKeys ns ls).
Proof.
  unfold degreeKeys. apply foldl_preserves.
  - intros. by do 2 apply setAdd_NoDup.
  - apply foldl_preserves; [intros; by apply setAdd_NoDup|apply NoDup_nil_2].
Qed.

Lemma mapGet_lookup m i k v :
  NoDup (m.*1) → m !! i = Some (k, v) → mapGet k m = Some v.
Proof.
  revert i. induction m as [|[k0 v0] m IH]; intros i Hnd Hi; [done|].
  simpl in *. apply NoDup_cons in Hnd as [Hk0 Hnd].
  destruct i as [|i]; simpl in Hi.
  - simplify_eq. by rewrite decide_True.
  - rewrite decide_False; [by eapply IH|].
    intros ->. apply Hk0. apply list_elem_of_fmap. exists (k, v).
    split; [done|]. by eapply list_elem_of_lookup_2.
Qed.

Lemma mapGet_Some_lookup m k v :
  mapGet k m = Some v → ∃ i, m !! i = Some (k, v).
Proof.
  induction m as [|[k0 v0] m IH]; [done|]. simpl.
  destruct (decide (k0 = k)) as [->|].
  - intros [= ->]. by exists 0%nat.
  - intros (i & Hi)%IH. by exists (S i).
Qed.

(** The scan for the largest degree: the outcome is the start value when no
    entry exceeds it, and otherwise the first entry of largest degree. *)
Lemma mostConnected_scan (m : list (string * Z)) (b0 : option string) (d0 : Z) :
  let best := foldl (λ best entry, if bool_decide (best.2 < entry.2)
                                   then (Some entry.1, entry.2) else best)
                (b0, d0) m in
  (∀ i k d, m !! i = Some (k, d) → (d ≤ best.2)%Z) ∧
  ((best = (b0, d0)) ∨
   (∃ i k, m !! i = Some (k, best.2) ∧ best.1 = Some k ∧ d0 < best.2 ∧
           ∀ j k' d', (j < i)%nat → m !! j = Some (k', d') → d' < best.2)).
Proof.
  revert b0 d0. induction m as [|[k d] m IH]; intros b0 d0; simpl.
  - split; [done|by left].
  - case_bool_decide as Hlt; simpl in Hlt.
    + destruct (IH (Some k) d) as [Hmax Hcase]. simpl in *.
      set (best := foldl _ _ m) in *.
      assert (d ≤ best.2)%Z as Hd.
      { destruct Hcase as [->|(_ & _ & _ & _ & ? & _)]; simpl; lia. }
      split.
      * intros [|i] k' d' Hi; simpl in Hi; [by simplify_eq|by eapply Hmax].
      * right. destruct Hcase as [Heq|(i & k1 & Hi & Hb & Hgt & Hfirst)].
        -- exists 0%nat, k. rewrite Heq. simpl. split_and!; [done..|lia|].
           intros; lia.
        -- exists (S i), k1. split_and!; [done..|lia|].
           intros [|j] k' d' Hj Hl; simpl in Hl; [simplify_eq; lia|].
           eapply Hfirst; [|done]. lia.
    + destruct (IH b0 d0) as [Hmax Hcase]. simpl in *.
      set (best := foldl _ _ m) in *.
      assert (d0 ≤ best.2)%Z as Hd.
      { destruct Hcase as [->|(_ & _ & _ & _ & ? & _)]; simpl; lia. }
      split.
      * intros [|i] k' d' Hi; simpl in Hi; [simplify_eq; lia|by eapply Hmax].
      * destruct Hcase as [Heq|(i & k1 & Hi & Hb & Hgt & Hfirst)]; [by left|].
        right. exists (S i), k1. split_and!; [done..|].
        intros [|j] k' d' Hj Hl; simpl in Hl; [simplify_eq; lia|].
        eapply Hfirst; [|done]. lia.
Qed.

(** X12: the degree map built by [calculateNetworkStats] has one entry for
    every node id and every end of a link and no other; the entry of an id
    is the number of link ends at it (0 for an isolated node, 2 for a link
    from an id to itself), and all entries add up to twice the number of
    links. *)
Theorem nodeDegrees_spec (ns : list Node.t) (ls : list Link.t) :
  NoDup (nodeDegrees ns ls).*1 ∧
  (∀ k, mapGet k (nodeDegrees ns ls)
        = if decide (isNodeId ns k ∨ isLinkEnd ls k) then Some (degreeOf ls k) else None) ∧
  sumOver snd (nodeDegrees ns ls) = 2 * Z.of_nat (length ls).
Proof.
  split_and!.
  - rewrite keys_nodeDegrees. apply degreeKeys_NoDup.
  - apply mapGet_nodeDegrees.
  - unfold nodeDegrees. induction ls as [|l ls IH] using rev_ind.
    + simpl. apply sumOver_init.
    + rewrite foldl_snoc, !sumOver_bumpDegree, IH, length_app. simpl. lia.
Qed.

Lemma spread_lookup_other (fields : list (string * Json)) (obj : gmap string Json) k :
  k ∉ fields.*1 →
  foldl (λ obj field, <[field.1 := field.2]> obj) obj fields !! k = obj !! k.
Proof.
  revert obj. induction fields as [|[k0 v0] fields IH]; intros obj Hk; [done|].
  rewrite fmap_cons in Hk. apply not_elem_of_cons in Hk as [Hne Hk]. simpl in *.
  rewrite IH by done. by rewrite lookup_insert_ne.
Qed.

Lemma spread_lookup_field (fields : list (string * Json)) (obj : gmap string Json) k v :
  NoDup fields.*1 → (k, v) ∈ fields →
  foldl (λ obj field, <[field.1 := field.2]> obj) obj fields !! k = Some v.
Proof.
  revert obj. induction fields as [|[k0 v0] fields IH]; intros obj Hnd Hin.
  - by apply elem_of_nil in Hin.
  - rewrite fmap_cons in Hnd. apply NoDup_cons in Hnd as [Hk0 Hnd]. simpl in *.
    apply elem_of_cons in Hin as [[= -> ->]|Hin]; [|by apply IH].
    rewrite spread_lookup_other by done. by rewrite lookup_insert_eq.
Qed.

(** X13: [mostConnected] is an id with the largest number of link ends and
    [maxDegree] is that number: among the ids of largest degree it is the
    one that entered the degree map first (nodes in array order, then link
    ends); without links [mostConnected] is null and [maxDegree] is 0.
    This holds whenever [metadata] carries no property of these two names. *)
Theorem mostConnected_spec (ns : list Node.t) (ls : list Link.t) (metadata : option Json) :
  "mostConnected" ∉ (spreadFields (default (JObj []) metadata)).*1 →
  "maxDegree" ∉ (spreadFields (default (JObj []) metadata)).*1 →
  ∃ stats,
    calculateNetworkStats (Some (GraphJson.mk (Array ns) (Array ls))) metadata
    = Normal stats ∧
    (ls = [] →
       stats !! "mostConnected" = Some JNull ∧ stats !! "maxDegree" = Some (JNum 0)) ∧
    (ls ≠ [] →
       ∃ i k,
         degreeKeys ns ls !! i = Some k ∧
         stats !! "mostConnected" = Some (JStr k) ∧
         stats !! "maxDegree" = Some (JNum (inject_Z (degreeOf ls k))) ∧
         (1 ≤ degreeOf ls k)%Z ∧
         (∀ k', (degreeOf ls k' ≤ degreeOf ls k)%Z) ∧
         (∀ j k', (j < i)%nat → degreeKeys ns ls !! j = Some k' →
                  degreeOf ls k' < degreeOf ls k)).
Proof.
  intros Hmc Hmd. eexists. split; [reflexivity|].
  set (stats := foldl _ _ _).
  assert (stats !! "mostConnected" = Some (jsonOfId (mostConnectedOf (nodeDegrees ns ls)).1) ∧
          stats !! "maxDegree" = Some (JNum (inject_Z (mostConnectedOf (nodeDegrees ns ls)).2)))
    as [Hk Hd].
  { unfold stats.
    rewrite !spread_lookup_other by done.
    split; [by rewrite lookup_insert_ne, lookup_insert_eq|by rewrite lookup_insert_eq]. }
  rewrite Hk, Hd. clear Hk Hd stats Hmc Hmd.
  pose proof (keys_nodeDegrees ns ls) as Hkeys.
  assert (NoDup (nodeDegrees ns ls).*1) as Hnd
    by (rewrite Hkeys; apply degreeKeys_NoDup).
  pose proof (mapGet_nodeDegrees ns ls) as Hget.
  destruct (mostConnected_scan (nodeDegrees ns ls) None 0) as [Hmax Hcase].
  fold (mostConnectedOf (nodeDegrees ns ls)) in Hmax, Hcase.
  set (m := nodeDegrees ns ls) in *. set (best := mostConnectedOf m) in *.
  assert (∀ k, (degreeOf ls k ≤ best.2)%Z) as Hall.
  { intros k. specialize (Hget k). destruct (decide _) as [|Hno].
    - apply mapGet_Some_lookup in Hget as [i Hi]. by eapply Hmax.
    - pose proof (degreeOf_isLinkEnd ls k). pose proof (degreeOf_nonneg ls k).
      assert (0 ≤ best.2)%Z
        by (destruct Hcase as [->|(_ & _ & _ & _ & ? & _)]; simpl; lia).
      destruct (decide (0 < degreeOf ls k)); [|lia]. destruct Hno. right. naive_solver. }
  assert (∀ i k d, m !! i = Some (k, d) → d = degreeOf ls k) as Hentry.
  { intros i k d Hi. pose proof (mapGet_lookup _ _ _ _ Hnd Hi) as Hk.
    rewrite Hget in Hk. destruct (decide _); by simplify_eq. }
  split.
  - intros ->. destruct Hcase as [->|(i & k & Hi & _ & Hpos & _)]; [done|].
    apply Hentry in Hi. unfold degreeOf in Hi. simpl in Hi. lia.
  - intros Hls. destruct Hcase as [Heq|(i & k & Hi & Hb & Hpos & Hfirst)].
    + destruct ls as [|l ls']; [done|].
      specialize (Hall (Link.source l)). rewrite Heq in Hall. simpl in Hall.
      assert (0 < degreeOf (l :: ls') (Link.source l)); [|lia].
      apply degreeOf_isLinkEnd. exists l. split; [by left|by left].
    + pose proof (Hentry _ _ _ Hi) as Hdeg.
      exists i, k. split_and!.
      * rewrite <- Hkeys, list_lookup_fmap, Hi. done.
      * by rewrite Hb.
      * by rewrite Hdeg.
      * lia.
      * intros k'. rewrite <- Hdeg. apply Hall.
      * intros j k' Hj Hl. rewrite <- Hkeys, list_lookup_fmap in Hl.
        destruct (m !! j) as [[k2 d2]|] eqn:Hmj; simplify_eq/=.
        rewrite <- (Hentry _ _ _ Hmj), <- Hdeg. by eapply Hfirst.
Qed.

Lemma mostConnected_spec_witness :
  let ns := [nd "A"; nd "B"; nd "C"] in
  let ls := [lk "A" "B" 4; lk "C" "B" 9; lk "B" "A" 2] in
  "mostConnected" ∉ (spreadFields (default (JObj []) None)).*1 ∧
  "maxDegree" ∉ (spreadFields (default (JObj []) None)).*1 ∧
  ls ≠ [] ∧
  ∃ stats k,
    calculateNetworkStats (Some (GraphJson.mk (Array ns) (Array ls))) None
    = Normal stats ∧
    stats !! "mostConnected" = Some (JStr k) ∧
    stats !! "maxDegree" = Some (JNum (inject_Z (degreeOf ls k))).
Proof.
  intros ns ls.
  assert ("mostConnected" ∉ (spreadFields (default (JObj []) None)).*1) as H1
    by (simpl; apply not_elem_of_nil).
  assert ("maxDegree" ∉ (spreadFields (default (JObj []) None)).*1) as H2
    by (simpl; apply not_elem_of_nil).
  assert (ls ≠ []) as H3 by discriminate.
  destruct (mostConnected_spec ns ls None H1 H2) as (stats & Hrun & _ & Hsome).
  destruct (Hsome H3) as (i & k & _ & Hk & Hd & _).
  split; [exact H1|]. split; [exact H2|]. split; [exact H3|].
  exists stats, k. split; [exact Hrun|]. split; [exact Hk|exact Hd].
Defined.

(** X14: a missing [nodes] or [links] counts as an empty array, a [null]
    one makes the call throw a [TypeError].  When it returns, the
    properties of [metadata] have reached the returned object and won over
    computed properties of the same name, and every other property is the
    computed one.  A falsy graph gives the empty object. *)
Theorem networkStats_metadata (g : GraphJson.t) (fields : list (string * Json))
    (k : string) (v : Json) :
  NoDup fields.*1 →
  (GraphJson.nodes g ≠ Null → GraphJson.links g ≠ Null →
     ∃ stats computed,
       calculateNetworkStats (Some g) (Some (JObj fields)) = Normal stats ∧
       calculateNetworkStats (Some g) None = Normal computed ∧
       ((k, v) ∈ fields → stats !! k = Some v) ∧
       (k ∉ fields.*1 → stats !! k = computed !! k) ∧
       computed !! "totalNodes"
       = Some (JNum (inject_Z (Z.of_nat (length (default [] (orEmpty (GraphJson.nodes g))))))) ∧
       computed !! "totalLinks"
       = Some (JNum (inject_Z (Z.of_nat (length (default [] (orEmpty (GraphJson.links g)))))))) ∧
  (GraphJson.nodes g = Null ∨ GraphJson.links g = Null →
     ∃ error, calculateNetworkStats (Some g) (Some (JObj fields)) = Throw error) ∧
  calculateNetworkStats None (Some (JObj fields)) = Normal ∅.
Proof.
  intros Hnd. destruct g as [gn gl]. simpl. split_and!.
  - intros Hn Hl. unfold calculateNetworkStats. simpl.
    destruct (orEmpty gl) as [links|] eqn:Hgl; [|by destruct gl].
    destruct (orEmpty gn) as [nodes|] eqn:Hgn; [|by destruct gn].
    eexists _, _. split; [reflexivity|]. split; [reflexivity|]. simpl. split_and!.
    + intros Hin. by apply spread_lookup_field.
    + intros Hk. by apply spread_lookup_other.
    + by rewrite !lookup_insert_ne, lookup_insert_eq by done.
    + by rewrite !lookup_insert_ne, lookup_insert_eq by done.
  - intros [->| ->]; unfold calculateNetworkStats; simpl.
    + destruct (orEmpty gl); eauto.
    + eauto.
  - done.
Qed.

Lemma networkStats_metadata_witness :
  let fields := [("total_migrations", JNum 120); ("totalNodes", JStr "many")] in
  let g := GraphJson.mk (Array [nd "A"; nd "B"]) Undefined in
  NoDup fields.*1 ∧ GraphJson.nodes g ≠ Null ∧ GraphJson.links g ≠ Null ∧
  (∃ stats computed,
     calculateNetworkStats (Some g) (Some (JObj fields)) = Normal stats ∧
     calculateNetworkStats (Some g) None = Normal computed ∧
     stats !! "total_migrations" = Some (JNum 120) ∧
     stats !! "totalNodes" = Some (JStr "many") ∧
     computed !! "totalNodes" = Some (JNum 2) ∧
     stats !! "totalLinks" = Some (JNum 0)) ∧
  (∃ error, calculateNetworkStats (Some (GraphJson.mk (Array [nd "A"; nd "B"]) Null))
              (Some (JObj fields)) = Throw error).
Proof.
  intros fields g.
  assert (NoDup fields.*1) as Hnd
    by (simpl; repeat (apply NoDup_cons_2; [set_solver|]); apply NoDup_nil_2).
  assert (GraphJson.nodes g ≠ Null) as Hn by discriminate.
  assert (GraphJson.links g ≠ Null) as Hl by discriminate.
  destruct (networkStats_metadata g fields "total_migrations" (JNum 120) Hnd)
    as (Hruns & _ & _).
  destruct (Hruns Hn Hl) as (stats & computed & Hs & Hc & H1 & _ & Hnodes & Hlinks).
  destruct (networkStats_metadata g fields "totalNodes" (JStr "many") Hnd)
    as (Hruns2 & _ & _).
  destruct (Hruns2 Hn Hl) as (stats2 & computed2 & Hs2 & _ & H2 & _).
  destruct (networkStats_metadata g fields "totalLinks" JNull Hnd)
    as (Hruns3 & _ & _).
  destruct (Hruns3 Hn Hl) as (stats3 & computed3 & Hs3 & Hc3 & _ & H3 & _ & Hlinks3).
  destruct (networkStats_metadata (GraphJson.mk (Array [nd "A"; nd "B"]) Null)
              fields "totalLinks" JNull Hnd) as (_ & Hthrow & _).
  split; [exact Hnd|]. split; [exact Hn|]. split; [exact Hl|]. split.
  - exists stats, computed. split; [exact Hs|]. split; [exact Hc|].
    split; [apply H1; set_solver|].
    split; [rewrite Hs in Hs2; injection Hs2 as <-; apply H2; set_solver|].
    split; [exact Hnodes|].
    rewrite Hs in Hs3. rewrite Hc in Hc3.
    injection Hs3 as <-. injection Hc3 as <-.
    rewrite H3 by (simpl; set_solver). exact Hlinks3.
  - apply Hthrow. by right.
Defined.

(** ** calculateLinkWidth *)

(** X15: computed exactly (numbers as rationals, so away from
    floating-point overflow), [calculateLinkWidth] returns a width between 1
    and 8 for every value and every pair of bounds, with one exception:
    when the two bounds and the value all coincide the result is [NaN]. *)
Theorem calculateLinkWidth_range (value minValue maxValue : Q) :
  (¬ (maxValue == minValue ∧ value == minValue)%Q →
   ∃ w, calculateLinkWidth value minValue maxValue = Num w ∧ (1 <= w <= 8)%Q) ∧
  ((maxValue == minValue)%Q → (value == minValue)%Q →
   calculateLinkWidth value minValue maxValue = NaN).
Proof.
  unfold calculateLinkWidth. split.
  - intros Hno. destruct (Qeq_bool maxValue minValue) eqn:Hb.
    + apply Qeq_bool_iff in Hb.
      destruct (Qcompare_spec value minValue) as [Heq| |].
      * destruct Hno. done.
      * exists 1%Q. split; [done|]. split; [apply Qle_refl|discriminate].
      * exists 8%Q. split; [done|]. split; [discriminate|apply Qle_refl].
    + eexists. split; [reflexivity|]. rewrite Qred_correct. split.
      * apply Q.le_max_l.
      * apply Q.max_lub; [discriminate|apply Q.le_min_l].
  - intros Hb Hv. apply Qeq_bool_iff in Hb. rewrite Hb.
    by destruct (Qcompare_spec value minValue) as [|Hlt|Hlt];
      [|rewrite Hv in Hlt; apply Qlt_irrefl in Hlt..].
Qed.

Lemma calculateLinkWidth_range_witness :
  (∃ w, calculateLinkWidth 50 0 200 = Num w ∧ (1 <= w <= 8)%Q) ∧
  calculateLinkWidth 3 3 3 = NaN.
Proof.
  destruct (calculateLinkWidth_range 50 0 200) as [Hnum _].
  destruct (calculateLinkWidth_range 3 3 3) as [_ Hnan].
  split.
  - apply Hnum. intros [H _]. vm_compute in H. discriminate.
  - apply Hnan; reflexivity.
Defined.

Lemma linkWidth_formula (v : Q) :
  (1 + (v - 0) / (200 - 0) * (8 - 1) == 1 + v * (7 # 200))%Q.
Proof. field. Qed.

(** X16: the width the graph component gives a link is a number between 1
    and 8 that never decreases when the value of the link grows; it is 1
    for values up to 0 and 8 for values from 200 on. *)
Theorem getLinkWidth_monotone (l1 l2 : Link.t) :
  ∃ w1 w2,
    getLinkWidth l1 = Num w1 ∧ getLinkWidth l2 = Num w2 ∧
    (1 <= w1 <= 8)%Q ∧
    ((Link.value l1 ≤ Link.value l2)%Z → (w1 <= w2)%Q) ∧
    ((Link.value l1 ≤ 0)%Z → (w1 == 1)%Q) ∧
    ((200 ≤ Link.value l1)%Z → (w1 == 8)%Q).
Proof.
  unfold getLinkWidth, calculateLinkWidth.
  assert (Qeq_bool 200 0 = false) as -> by done.
  eexists _, _. split; [reflexivity|]. split; [reflexivity|].
  rewrite !Qred_correct, !linkWidth_formula. split_and!.
  - apply Q.le_max_l.
  - apply Q.max_lub; [discriminate|apply Q.le_min_l].
  - intros Hle. rewrite Zle_Qle in Hle.
    apply Q.max_le_compat_l, Q.min_le_compat_l. lra.
  - intros Hle. rewrite (Zle_Qle _ 0) in Hle.
    change (inject_Z 0) with 0%Q in Hle.
    apply Q.max_l. eapply Qle_trans; [apply Q.le_min_r|]. lra.
  - intros Hle. rewrite (Zle_Qle 200) in Hle.
    change (inject_Z 200) with 200%Q in Hle.
    rewrite Q.min_l by lra. by apply Q.max_r.
Qed.

Lemma getLinkWidth_monotone_witness :
  ∃ w1 w2,
    getLinkWidth (lk "A" "B" 250) = Num w1 ∧ getLinkWidth (lk "B" "C" 300) = Num w2 ∧
    (w1 <= w2)%Q ∧ (w1 == 8)%Q ∧
    ∃ w0, getLinkWidth (lk "C" "D" (-5)) = Num w0 ∧ (w0 == 1)%Q.
Proof.
  destruct (getLinkWidth_monotone (lk "A" "B" 250) (lk "B" "C" 300))
    as (w1 & w2 & H1 & H2 & _ & Hmono & _ & Hsat).
  destruct (getLinkWidth_monotone (lk "C" "D" (-5)) (lk "B" "C" 300))
    as (w0 & _ & H0 & _ & _ & _ & Hlow & _).
  exists w1, w2. split; [exact H1|]. split; [exact H2|].
  split; [apply Hmono; simpl; lia|]. split; [apply Hsat; simpl; lia|].
  exists w0. split; [exact H0|]. apply Hlow. simpl. lia.
Defined.

Lemma filtered_nodes_have_charts_witness :
  let ns := [nd "A"; nd "B"; nd "C"; nd "D"] in
  let ls := [lk "A" "B" 7; lk "B" "C" 2; lk "C" "D" 4] in
  let d := withGraph emptyData ns ls in
  graph d = Some (graphOf ns ls) ∧ 0 < 5 ∧
  filterByMinFlow (Some d) 5
  = Normal (Some (withGraph d [nd "A"; nd "B"] [lk "A" "B" 7])) ∧
  nd "B" ∈ [nd "A"; nd "B"] ∧ Node.id (nd "B") ≠ "" ∧
  ∃ stats incomingData outgoingData,
    migrationStats (Some "B") (Some (graphOf [nd "A"; nd "B"] [lk "A" "B" 7]))
    = Normal (Charts stats incomingData outgoingData).
Proof.
  intros ns ls d.
  assert (graph d = Some (graphOf ns ls)) as Hg by reflexivity.
  assert (0 < 5) as Hpos by lia.
  assert (filterByMinFlow (Some d) 5
          = Normal (Some (withGraph d [nd "A"; nd "B"] [lk "A" "B" 7]))) as Hrun
    by (vm_compute; reflexivity).
  assert (nd "B" ∈ [nd "A"; nd "B"]) as Hin by set_solver.
  assert (Node.id (nd "B") ≠ "") as Hid by discriminate.
  split; [exact Hg|]. split; [exact Hpos|]. split; [exact Hrun|].
  split; [exact Hin|]. split; [exact Hid|].
  exact (filtered_nodes_have_charts d ns ls 5 _ _ (nd "B") Hg Hpos Hrun Hin Hid).
Defined.

(** ** handleNodeClick *)

Lemma setAdd_fold {A} (f : A → string) (l : list A) (init : list string) :
  let set := foldl (λ set a, setAdd (f a) set) init l in
  (∀ x, x ∈ set ↔ x ∈ init ∨ x ∈ f <$> l) ∧
  (NoDup init → NoDup set) ∧
  (∀ x, head init = Some x → head set = Some x).
Proof.
  revert init. induction l as [|a l IH]; intros init; simpl.
  - split_and!; [|done..]. intros x. rewrite elem_of_nil. naive_solver.
  - destruct (IH (setAdd (f a) init)) as (Hmem & Hnd & Hhead).
    assert (∀ x, x ∈ setAdd (f a) init ↔ x ∈ init ∨ x = f a) as Hadd.
    { intros x. unfold setAdd. destruct (decide _).
      - naive_solver.
      - rewrite elem_of_app, list_elem_of_singleton. done. }
    split_and!.
    + intros x. rewrite Hmem, Hadd, elem_of_cons. naive_solver.
    + intros Hi. by apply Hnd, setAdd_NoDup.
    + intros x Hx. apply Hhead. unfold setAdd. destruct (decide _); [done|].
      destruct init; [done|]. done.
Qed.

(** X17: clicking a community highlights the community itself first, then
    each community a link joins it with, every id once; and it highlights
    exactly the links that have the community as source or target. *)
Theorem handleNodeClick_spec (d : Data) (g : Graph) (ls : list Link.t) (c : string) :
  graph d = Some g → links g = Some ls →
  ∃ highlightNodes highlightLinks,
    handleNodeClick (Some d) c = Some (highlightNodes, highlightLinks) ∧
    head highlightNodes = Some c ∧
    NoDup highlightNodes ∧
    (∀ k, k ∈ highlightNodes ↔ k = c ∨ edge ls k c ∨ edge ls c k) ∧
    (∀ link, link ∈ highlightLinks ↔
             link ∈ ls ∧ (Link.target link = c ∨ Link.source link = c)).
Proof.
  intros Hg Hls. unfold handleNodeClick, getConnectedLinks. rewrite Hg.
  destruct g as [gn gl]. simpl in Hls. subst gl. simpl.
  set (inc := filter (λ link, Link.target link = c) ls).
  set (out := filter (λ link, Link.source link = c) ls).
  destruct (setAdd_fold Link.source inc [c]) as (Hm1 & Hn1 & Hh1).
  destruct (setAdd_fold Link.target out
              (foldl (λ set link, setAdd (Link.source link) set) [c] inc))
    as (Hm2 & Hn2 & Hh2).
  eexists _, _. split; [reflexivity|]. split_and!.
  - by apply Hh2, Hh1.
  - apply Hn2, Hn1, NoDup_singleton.
  - intros k. rewrite Hm2, Hm1, list_elem_of_singleton, !list_elem_of_fmap.
    unfold edge, inc, out. setoid_rewrite list_elem_of_filter. naive_solver.
  - intros link. rewrite elem_of_app. unfold inc, out.
    rewrite !list_elem_of_filter. naive_solver.
Qed.

Lemma handleNodeClick_spec_witness :
  let ls := [lk "A" "B" 4; lk "C" "B" 9; lk "B" "A" 2] in
  let d := withGraph emptyData [nd "A"; nd "B"; nd "C"] ls in
  graph d = Some (graphOf [nd "A"; nd "B"; nd "C"] ls) ∧
  links (graphOf [nd "A"; nd "B"; nd "C"] ls) = Some ls ∧
  ∃ highlightNodes highlightLinks,
    handleNodeClick (Some d) "B" = Some (highlightNodes, highlightLinks) ∧
    head highlightNodes = Some "B" ∧ NoDup highlightNodes.
Proof.
  intros ls d.
  destruct (handleNodeClick_spec d (graphOf [nd "A"; nd "B"; nd "C"] ls) ls "B"
              eq_refl eq_refl) as (hn & hl & Hrun & Hhead & Hnd & _).
  split; [reflexivity|]. split; [reflexivity|].
  exists hn, hl. split; [exact Hrun|]. split; [exact Hhead|exact Hnd].
Defined.

(** ** More on findPath and calculateCentrality *)

(** X18: [findPath] decides reachability: it returns a non-empty sequence
    exactly when some directed path leads from the source to the target,
    and the sequence it returns never visits an id twice. *)
Theorem findPath_decides_reachability (ns : list Node.t) (ls : list Link.t)
    (s t : string) :
  (findPath (Some (graphOf ns ls)) s t ≠ [] ↔ ∃ p, isPath ls s t p) ∧
  NoDup (findPath (Some (graphOf ns ls)) s t).
Proof.
  split; [split|].
  - intros Hne. exists (findPath (Some (graphOf ns ls)) s t).
    by apply findPath_simple.
  - intros [p Hp]. by eapply findPath_reachable.
  - destruct (decide (findPath (Some (graphOf ns ls)) s t = [])) as [->|Hne].
    + apply NoDup_nil_2.
    + by apply findPath_simple.
Qed.

(** X19: [findPath] looks at nothing but the ends of the links: two graphs
    whose link arrays have the same sources and targets in the same order
    give the same path, whatever their nodes arrays, link values and other
    link fields are. *)
Theorem findPath_ignores_weights (ns ns' : list Node.t) (ls ls' : list Link.t)
    (s t : string) :
  (λ link, (Link.source link, Link.target link)) <$> ls
  = (λ link, (Link.source link, Link.target link)) <$> ls' →
  findPath (Some (graphOf ns ls)) s t = findPath (Some (graphOf ns' ls')) s t.
Proof.
  intros Hends.
  assert (∀ l, buildAdjacency l
               = foldl (λ adj p, addLink adj (Link.mk p.1 p.2 0 None None)) ∅
                   ((λ link, (Link.source link, Link.target link)) <$> l)) as Hadj.
  { intros l. unfold buildAdjacency. by rewrite foldl_fmap. }
  assert (length ls = length ls') as Hlen.
  { apply (f_equal length) in Hends. by rewrite !length_fmap in Hends. }
  unfold findPath, graphOf, searchFuel. by rewrite !Hadj, Hends, Hlen.
Qed.

Lemma findPath_ignores_weights_witness :
  (λ link, (Link.source link, Link.target link)) <$> [lk "A" "B" 1; lk "B" "C" 1]
  = (λ link, (Link.source link, Link.target link))
      <$> [Link.mk "A" "B" 90 (Some 3%Q) None; Link.mk "B" "C" 2 None (Some 1%Q)] ∧
  findPath (Some chainABC) "A" "C"
  = findPath (Some (graphOf [] [Link.mk "A" "B" 90 (Some 3%Q) None;
                                Link.mk "B" "C" 2 None (Some 1%Q)])) "A" "C".
Proof.
  assert ((λ link, (Link.source link, Link.target link)) <$> [lk "A" "B" 1; lk "B" "C" 1]
          = (λ link, (Link.source link, Link.target link))
              <$> [Link.mk "A" "B" 90 (Some 3%Q) None; Link.mk "B" "C" 2 None (Some 1%Q)])
    as Hends by reflexivity.
  split; [exact Hends|].
  exact (findPath_ignores_weights [nd "A"; nd "B"; nd "C"] [] _ _ "A" "C" Hends).
Defined.

Lemma strayEntry_counts ns ls k :
  ¬ isNodeId ns k → strayEntry ls k (centralityCounts (Some (graphOf ns ls)) ns).
Proof.
  intros Hk. unfold centralityCounts, countPairs.
  assert (strayEntry ls k (initCentrality ns)) as Hinit.
  { left. unfold initCentrality.
    assert (∀ l, (∀ n, n ∈ l → n ∈ ns) →
                 foldl (λ c node, assign c (Node.id node) (Num 0))
                   (∅ : gmap string jsnum) l !! k = None) as H.
    { induction l as [|n l IH] using rev_ind; intros Hsub; [done|].
      rewrite foldl_snoc, assign_other.
      - apply IH. intros x Hx. apply Hsub. set_solver.
      - intros Heq. apply Hk. exists n. split; [|done]. apply Hsub. set_solver. }
    by apply H. }
  revert Hinit. generalize (initCentrality ns) as c. intros c Hc.
  apply foldl_preserves; [|done]. clear c Hc. intros c x Hc.
  apply foldl_preserves; [|done]. clear c Hc. intros c y Hc.
  unfold countPair. destruct (decide _); [|done].
  set (p := findPath (Some (graphOf ns ls)) (Node.id x) (Node.id y)).
  destruct (decide (p = [])) as [->|Hp]; [done|].
  apply findPath_simple in Hp as [Hpath _]. fold p in Hpath.
  assert (∀ ks, (∀ x, x ∈ ks → x ∈ linkTargets ls) →
                ∀ c, strayEntry ls k c → strayEntry ls k (foldl increment c ks)) as Hinc.
  { induction ks as [|k' ks IH]; intros Hsub c' Hc'; [done|]. simpl.
    apply IH; [intros; apply Hsub; by right|].
    unfold strayEntry, increment. destruct (decide (k' = k)) as [->|Hne].
    - destruct (decide (k = "__proto__")) as [Hproto|Hown].
      + unfold assign. by rewrite decide_True.
      + rewrite assign_same by done. right.
        split; [|apply Hsub; by left].
        by destruct Hc' as [->|[-> _]].
    - by rewrite assign_other. }
  apply Hinc; [|done]. intros z Hz. by eapply intermediates_targets.
Qed.

(** X20: in the object [calculateCentrality] returns, the score of every
    node whose id is not ['__proto__'] is a non-negative number; an id that
    is not a node has an entry only if it is the target of a link, and then
    its score is [NaN]; there is never an entry ['__proto__'], and never an
    infinite score.  So when no link dangles no score is [NaN]. *)
Theorem centrality_scores (ns : list Node.t) (ls : list Link.t) (k : string) :
  let scores := calculateCentrality (Some (graphOf ns ls)) in
  (isNodeId ns k → k ≠ "__proto__" →
     ∃ q, scores !! k = Some (Num q) ∧ (0 <= q)%Q) ∧
  (¬ isNodeId ns k →
     scores !! k = None ∨ (scores !! k = Some NaN ∧ k ∈ linkTargets ls)) ∧
  scores !! "__proto__" = None ∧
  (∀ negative, scores !! k ≠ Some (Infinity negative)) ∧
  ((∀ x, x ∈ linkTargets ls → isNodeId ns x) → scores !! k ≠ Some NaN).
Proof.
  intros scores.
  assert (isNodeId ns k → k ≠ "__proto__" →
          ∃ q, scores !! k = Some (Num q) ∧ (0 <= q)%Q) as Hnode.
  { intros (node & Hin & <-) Hown.
    assert (holds (Node.id node) (initCentrality ns) 0) as Hinit.
    { exists 0%Q. split; [by apply initCentrality_lookup|reflexivity]. }
    destruct (countPairs_holds ns ls (Node.id node) Hown ns _ _ Hinit)
      as (z & (q & Hq & Hz) & Hle).
    unfold scores, calculateCentrality, graphOf, centralityCounts, countPairs in *.
    destruct (Qle_bool _ 0) eqn:Hn; simpl.
    - exists q. split; [done|]. rewrite Hz, <- (Zle_Qle 0). lia.
    - assert (0 < normalizer (Z.of_nat (length ns)))%Q as Hpos.
      { apply Qnot_le_lt. intros Hle'. apply Qle_bool_iff in Hle'. congruence. }
      rewrite lookup_fmap, Hq. cbn [fmap option_fmap option_map].
      rewrite divide_positive by done. eexists. split; [reflexivity|].
      rewrite Qred_correct, Hz.
      apply Qle_shift_div_l; [done|]. rewrite Qmult_0_l, <- (Zle_Qle 0). lia. }
  assert (¬ isNodeId ns k →
          scores !! k = None ∨ (scores !! k = Some NaN ∧ k ∈ linkTargets ls)) as Hstray.
  { intros Hk. pose proof (strayEntry_counts ns ls k Hk) as Hs.
    unfold scores, calculateCentrality, graphOf in *.
    destruct (negb _); [|done]. rewrite lookup_fmap.
    destruct Hs as [->|[-> ?]]; [by left|by right]. }
  pose proof (calculateCentrality_proto (Some (graphOf ns ls))) as Hproto.
  fold scores in Hproto.
  assert (scores !! k = None ∨ scores !! k = Some NaN ∧ ¬ isNodeId ns k ∧ k ∈ linkTargets ls
          ∨ ∃ q, scores !! k = Some (Num q)) as Hcases.
  { destruct (decide (isNodeId ns k)) as [Hk|Hk].
    - destruct (decide (k = "__proto__")) as [->|Hown]; [by left|].
      destruct (Hnode Hk Hown) as (q & Hq & _). right. right. eauto.
    - destruct (Hstray Hk) as [?|[? ?]]; [by left|]. right. left. done. }
  split_and!; [done..| |].
  - intros b Hb. destruct Hcases as [?|[(? & _)|[q ?]]]; congruence.
  - intros Hwl Hnan. destruct Hcases as [?|[(_ & Hk & Ht)|[q ?]]]; [congruence| |congruence].
    by apply Hk, Hwl.
Qed.

Lemma centrality_scores_witness :
  let ns := [nd "A"; nd "B"] in
  let ls := [lk "A" "X" 1; lk "X" "B" 1] in
  let scores := calculateCentrality (Some (graphOf ns ls)) in
  isNodeId ns "A" ∧ "A" ≠ "__proto__" ∧ ¬ isNodeId ns "X" ∧
  (∃ q, scores !! "A" = Some (Num q) ∧ (0 <= q)%Q) ∧
  (scores !! "X" = None ∨ (scores !! "X" = Some NaN ∧ "X" ∈ linkTargets ls)) ∧
  scores !! "X" = Some NaN ∧
  ((∀ x, x ∈ linkTargets [lk "A" "B" 1] → isNodeId ns x) ∧
   calculateCentrality (Some (graphOf ns [lk "A" "B" 1])) !! "B" ≠ Some NaN).
Proof.
  intros ns ls scores.
  assert (isNodeId ns "A") as HA by (apply isNodeId_fmap; simpl; set_solver).
  assert ("A" ≠ "__proto__") as Hown by discriminate.
  assert (¬ isNodeId ns "X") as HX by (rewrite isNodeId_fmap; simpl; set_solver).
  assert (∀ x, x ∈ linkTargets [lk "A" "B" 1] → isNodeId ns x) as Hwl.
  { intros x Hx. apply isNodeId_fmap. unfold linkTargets in Hx. simpl in *. set_solver. }
  destruct (centrality_scores ns ls "A") as (Hnode & _ & _ & _ & _).
  destruct (centrality_scores ns ls "X") as (_ & Hstray & _ & _ & _).
  destruct (centrality_scores ns [lk "A" "B" 1] "B") as (_ & _ & _ & _ & Hclean).
  split; [exact HA|]. split; [exact Hown|]. split; [exact HX|].
  split; [exact (Hnode HA Hown)|].
  split; [exact (Hstray HX)|]. split; [vm_compute; reflexivity|].
  split; [exact Hwl|exact (Hclean Hwl)].
Defined.

Lemma centrality_at_most_two_witness :
  (3 ≤ length [nd "A"; nd "B"; nd "C"])%nat ∧ nd "B" ∈ [nd "A"; nd "B"; nd "C"] ∧
  Node.id (nd "B") ≠ "__proto__" ∧
  ∃ q, calculateCentrality (Some hubABC) !! "B" = Some (Num q) ∧ (0 <= q <= 2)%Q.
Proof.
  assert (3 ≤ length [nd "A"; nd "B"; nd "C"])%nat as Hn by (simpl; lia).
  assert (nd "B" ∈ [nd "A"; nd "B"; nd "C"]) as Hin by set_solver.
  assert (Node.id (nd "B") ≠ "__proto__") as Hown by discriminate.
  split; [exact Hn|]. split; [exact Hin|]. split; [exact Hown|].
  exact (centrality_at_most_two [nd "A"; nd "B"; nd "C"]
           [lk "A" "B" 1; lk "B" "A" 1; lk "B" "C" 1; lk "C" "B" 1] (nd "B")
           Hn Hin Hown).
Defined.

(** ** From loading to the panels *)

(** X22: the validation in [loadMigrationData] is the guard the filters
    need.  Whatever the request returns (a document whose [nodes] and
    [links], where present, are arrays of records), the data handed on has
    a graph with both arrays, so the filters of [App] never throw on it,
    for any category and threshold; and on the filtered graph neither
    [calculateCommunityStats] nor [MigrationStats] throws for any
    selection. *)
Theorem loaded_data_is_safe (env : FetchOutcome) (category : string) (minFlow : Z)
    (selected : option string) :
  ∃ d d' ns' ls',
    (loadMigrationData env).1 = Normal d ∧
    applyFilters d category minFlow = Normal (Some d') ∧
    graph d' = Some (graphOf ns' ls') ∧
    (∃ stats, calculateCommunityStats (graph d') selected = Normal stats) ∧
    (∃ view, migrationStats selected (graph d') = Normal view).
Proof.
  assert (∃ d ns ls, (loadMigrationData env).1 = Normal d ∧
                     graph d = Some (graphOf ns ls)) as (d & ns & ls & Hload & Hg).
  { unfold loadMigrationData.
    destruct (tryLoad env) as [e|d] eqn:Hd; simpl.
    - by exists emptyData, [], [].
    - destruct env as [e|[|] [e|d0]]; simpl in Hd; try done.
      destruct (graph d0) as [[[ns|] [ls|]]|] eqn:Hg; simplify_eq.
      by exists d, ns, ls. }
  assert (∃ d' ns' ls', applyFilters d category minFlow = Normal (Some d') ∧
                        graph d' = Some (graphOf ns' ls')) as (d' & ns' & ls' & Hrun & Hg').
  { unfold applyFilters. destruct (decide (category ≠ "all")) as [Hc|Hc].
    - rewrite (filterByCategory_run d ns ls) by done.
      unfold mbind, completion_bind. case_bool_decide.
      + rewrite (filterByMinFlow_run (withGraph d _ _) _ _ minFlow eq_refl) by done.
        by eexists _, _, _.
      + by eexists _, _, _.
    - unfold mbind, completion_bind. case_bool_decide.
      + rewrite (filterByMinFlow_run d ns ls) by done. by eexists _, _, _.
      + by exists d, ns, ls. }
  exists d, d', ns', ls'. split_and!; [done..| |].
  - rewrite Hg'. unfold calculateCommunityStats.
    destruct selected as [c|]; [|by eexists].
    destruct (decide (c = "")); by eexists.
  - rewrite Hg'. unfold migrationStats, calculateCommunityStats.
    destruct selected as [c|]; [|by eexists].
    destruct (decide (c = "")); [by eexists|]. simpl.
    case_bool_decide; by eexists.
Qed.
